(** * helm-version-check: the reconciliation cycle of [cmd/main.go]

    A shallow embedding of [getLatestChartVersion], [processHelmSource] and
    the body of the polling loop of [main], together with the properties of
    the cycle that the design document states about them.

    Conventions of the embedding:
    - Go strings are [string]; [map[string]interface{}] is a
      [gmap string value] over a small universe of dynamically typed values;
    - the chart repositories are a function from URLs to responses, fixed
      for the duration of one cycle; every [http.Get] is recorded as an
      event;
    - the Prometheus gauge is observed through the same events: one
      [EvGauge] per call of [Set];
    - a nil-pointer dereference inside the semver library is the outcome
      [Panic]; the Go program does not recover from it;
    - diagnostic logging and the per-application report printed on standard
      output leave no mark in the model. *)

From Stdlib Require Import NArith ZArith String Ascii.
From stdpp Require Import base option list gmap strings.

Local Open Scope string_scope.

(** ** Strings *)

(** [strings.HasSuffix]: some tail of [s] is [suffix]. *)
Fixpoint HasSuffix (s suffix : string) : bool :=
  String.eqb s suffix ||
  match s with
  | EmptyString => false
  | String _ s' => HasSuffix s' suffix
  end.

(** ** The semver library, [github.com/Masterminds/semver/v3]

    The program uses four entry points: [NewVersion], [Compare] (through
    [GreaterThan] and [Equal]) and the two predicates themselves.  The
    library is a dependency, not part of the repository, so the cycle is
    verified against its interface; a concrete model of the library follows
    in [Module Masterminds]. *)

Class SemverLib := {
  Version : Type;
  (** [NewVersion s] is [(v, nil)] when [s] parses and [(nil, err)]
      otherwise. *)
  NewVersion : string → option Version;
  (** [v.Compare(o)] on two non-nil versions: -1, 0 or 1. *)
  Compare : Version → Version → comparison;
  (** Whether [Equal] tests its operands for nil before comparing them
      (releases from 3.3.0 on do; earlier ones call [Compare] directly). *)
  EqualChecksNil : bool
}.

(** The precedence laws of semantic versioning that the selection of the
    latest version relies on. *)
Class SemverOrder (L : SemverLib) : Prop := {
  Compare_refl : ∀ v : Version, Compare v v = Eq;
  Compare_sym : ∀ v o : Version, Compare o v = CompOpp (Compare v o);
  Compare_lt_trans : ∀ a b c : Version,
      Compare a b = Lt → Compare b c = Lt → Compare a c = Lt;
  Compare_eq_l : ∀ a b c : Version,
      Compare a b = Eq → Compare a c = Compare b c
}.

(** Result of a call that may dereference a nil pointer. *)
Inductive outcome (A : Type) : Type :=
| Done (a : A)
| Panic.
Arguments Done {A} a.
Arguments Panic {A}.

Section SemverMethods.
Context {L : SemverLib}.

(** [Version.GreaterThan]: [v.Compare(o) > 0].  [Compare] reads the fields
    of both operands, so a nil operand on either side panics. *)
Definition GreaterThan (v o : option Version) : outcome bool :=
  match v, o with
  | Some v, Some o =>
      Done (match Compare v o with Gt => true | _ => false end)
  | _, _ => Panic
  end.

(** [Version.Equal]: with the nil test, identical pointers are equal and a
    single nil operand is unequal; without it the call is
    [v.Compare(o) == 0]. *)
Definition Equal (v o : option Version) : outcome bool :=
  match v, o with
  | Some v, Some o =>
      Done (match Compare v o with Eq => true | _ => false end)
  | None, None => if EqualChecksNil then Done true else Panic
  | _, _ => if EqualChecksNil then Done false else Panic
  end.

End SemverMethods.

(** ** Data *)

(** Dynamically typed values of an unstructured Kubernetes object
    ([interface{}] after JSON decoding).  Numbers of either Go type behave
    alike under every type assertion of the program and are one
    constructor. *)
#[local] Set Warnings "-register-all".
Inductive value : Type :=
| VNil
| VBool (b : bool)
| VNumber (n : Z)
| VString (s : string)
| VSlice (l : list value)
| VMap (m : gmap string value).
#[local] Set Warnings "+register-all".

(** [x.(string)] on the result of a map read: the zero value on a missing
    key, on nil and on every other dynamic type. *)
Definition assertString (x : option value) : string * bool :=
  match x with
  | Some (VString s) => (s, true)
  | _ => ("", false)
  end.

(** [x.(map[string]interface{})]. *)
Definition assertMap (x : option value) : option (gmap string value) :=
  match x with
  | Some (VMap m) => Some m
  | _ => None
  end.

(** [x.([]interface{})]. *)
Definition assertSlice (x : option value) : option (list value) :=
  match x with
  | Some (VSlice l) => Some l
  | _ => None
  end.

(** [Unstructured.GetName]: the string at [metadata.name], or [""]. *)
Definition GetName (object : gmap string value) : string :=
  match assertMap (object !! "metadata") with
  | Some meta => fst (assertString (meta !! "name"))
  | None => ""
  end.

(** The decoded [index.yaml]: [Entries], each record reduced to its
    [Version] field. *)
Abbreviation Index := (gmap string (list string)).

(** The errors [getLatestChartVersion] returns. *)
Inductive error : Type :=
| HttpError                        (* err of http.Get *)
| DecodeError                      (* err of yaml Decode *)
| ChartNotFound (chartName : string).  (* fmt.Errorf("chart %s not found in repository") *)

(** The chart repositories as seen during one cycle. *)
Class Network := {
  Body : Type;
  httpGet : string → option Body;
  yamlDecode : Body → option Index
}.

(** Label values and value of one [helmVersionGauge.WithLabelValues(..).Set]
    call; [status] is 1 for the gauge value 1.0 and 0 for 0.0. *)
Record StatusSample := {
  applicationName : string;
  chartName : string;
  repositoryURL : string;
  declaredVersion : string;
  latestVersion : string;
  status : Z
}.

Definition isCurrent (s : StatusSample) : bool := (status s =? 1)%Z.

Inductive event : Type :=
| EvFetch (url : string)
| EvGauge (s : StatusSample).

(** ** Effects: the events of a computation, and panics

    A computation yields its outcome and the events it caused, in order.
    After a panic nothing more happens. *)

Definition M (A : Type) : Type := (outcome A * list event)%type.

Definition ret {A} (a : A) : M A := (Done a, []).

Definition bind {A B} (c : M A) (k : A → M B) : M B :=
  match c with
  | (Done a, evs) => let '(o, evs') := k a in (o, (evs ++ evs')%list)
  | (Panic, evs) => (Panic, evs)
  end.

Definition emit (e : event) : M unit := (Done tt, [e]).

Definition liftOutcome {A} (o : outcome A) : M A := (o, []).

#[export] Instance M_ret : MRet M := @ret.
#[export] Instance M_bind : MBind M := λ A B k c, bind c k.

(** [for _, x := range l { body x }]. *)
Fixpoint forEach {A} (l : list A) (body : A → M unit) : M unit :=
  match l with
  | [] => ret tt
  | x :: l' => body x ;; forEach l' body
  end.

Definition fetches (evs : list event) : list string :=
  omap (λ e, match e with EvFetch u => Some u | _ => None end) evs.

Definition samples (evs : list event) : list StatusSample :=
  omap (λ e, match e with EvGauge s => Some s | _ => None end) evs.

(** ** The program *)

Section Program.
Context {L : SemverLib} {N : Network}.

(** Lines 71-84: the running maximum over [versions[1:]], seeded with
    [versions[0].Version]. *)
Fixpoint scanVersions (latest : string) (rest : list string) : outcome string :=
  match rest with
  | [] => Done latest
  | v :: rest' =>
      let current := NewVersion latest in
      match NewVersion v with
      | None => scanVersions latest rest'
      | Some next =>
          match GreaterThan (Some next) current with
          | Done true => scanVersions v rest'
          | Done false => scanVersions latest rest'
          | Panic => Panic
          end
      end
  end.

(** [getLatestChartVersion], lines 38-89. *)
Definition getLatestChartVersion (repoURL chartName : string)
  : M (string * option error) :=
  emit (EvFetch (repoURL ++ "/index.yaml")) ;;
  match httpGet (repoURL ++ "/index.yaml") with
  | None => ret ("", Some HttpError)
  | Some body =>
      match yamlDecode body with
      | None => ret ("", Some DecodeError)
      | Some index =>
          match index !! chartName with
          | None | Some [] => ret ("", Some (ChartNotFound chartName))
          | Some (first :: rest) =>
              latest ← liftOutcome (scanVersions first rest);
              ret (latest, None)
          end
      end
  end.

(** A source record that passed the checks of [processHelmSource]. *)
Record HelmSourceDescriptor := {
  dChartName : string;
  dRepositoryURL : string;
  dDeclaredVersion : string
}.

(** Lines 101-113: the three fields read by key. *)
Definition extractFields (source : gmap string value) : string * string * string :=
  (fst (assertString (source !! "chart")),
   fst (assertString (source !! "repoURL")),
   fst (assertString (source !! "targetRevision"))).

(** Lines 127-132. *)
Definition normalizeRepoURL (repoURL : string) : string :=
  if negb (HasSuffix repoURL "/") then repoURL ++ "/" else repoURL.

(** Lines 93-132 of [processHelmSource]: everything before the repository
    is contacted.  [None] is one of the two early returns. *)
Definition extract (source : gmap string value) : option HelmSourceDescriptor :=
  match source !! "chart" with
  | None | Some VNil => None
  | Some _ =>
      let '(chartName, repoURL, chartVersion) := extractFields source in
      if String.eqb chartName "" || String.eqb repoURL "" || String.eqb chartVersion ""
      then None
      else Some {| dChartName := chartName;
                   dRepositoryURL := normalizeRepoURL repoURL;
                   dDeclaredVersion := chartVersion |}
  end.

(** Lines 140-151: the gauge value. *)
Definition versionStatus (chartVersion latestVersion : string) : outcome Z :=
  let currentVer := NewVersion chartVersion in
  let latestVer := NewVersion latestVersion in
  match latestVer with
  | None => Done 0%Z
  | Some _ =>
      match Equal currentVer latestVer with
      | Done true => Done 1%Z
      | Done false => Done 0%Z
      | Panic => Panic
      end
  end.

(** Lines 134-159 of [processHelmSource]. *)
Definition reportSource (appName : string) (d : HelmSourceDescriptor) : M unit :=
  r ← getLatestChartVersion (dRepositoryURL d) (dChartName d);
  match r with
  | (_, Some _) => ret tt
  | (latestVersion, None) =>
      st ← liftOutcome (versionStatus (dDeclaredVersion d) latestVersion);
      emit (EvGauge {| applicationName := appName;
                       chartName := dChartName d;
                       repositoryURL := dRepositoryURL d;
                       declaredVersion := dDeclaredVersion d;
                       latestVersion := latestVersion;
                       status := st |})
  end.

(** [processHelmSource], lines 92-172. *)
Definition processHelmSource (appName : string) (source : gmap string value) : M unit :=
  match extract source with
  | None => ret tt
  | Some d => reportSource appName d
  end.

(** Lines 262-271: one element of [spec.sources]. *)
Definition processSourcesEntry (appName : string) (src : value) : M unit :=
  match assertMap (Some src) with
  | Some sourceMap => processHelmSource appName sourceMap
  | None => ret tt
  end.

(** Lines 236-274: the body of the loop over [list.Items]. *)
Definition processApplication (object : gmap string value) : M unit :=
  let appName := GetName object in
  match assertMap (object !! "spec") with
  | None => ret tt
  | Some spec =>
      match assertMap (spec !! "source") with
      | Some source => processHelmSource appName source
      | None => ret tt
      end ;;
      match assertSlice (spec !! "sources") with
      | Some sources => forEach sources (processSourcesEntry appName)
      | None => ret tt
      end
  end.

(** Lines 235-275: one pass over the listed applications. *)
Definition runCycle (items : list (gmap string value)) : M unit :=
  forEach items processApplication.

End Program.

(** ** A model of the semver library

    [NewVersion] follows the library's regular expression
    [v?N(.N)?(.N)?(-pre)?(+meta)?] and its checks on the pre-release and
    the metadata; [Compare] follows the library's [Compare],
    [comparePrerelease] and [comparePrePart].  A pre-release is kept as its
    dot-separated identifiers, each already classified the way
    [comparePrePart] classifies it at every comparison ([strconv.ParseUint]
    succeeds or not).  The numeric segments may carry leading zeros, as in
    the releases up to 3.2. *)

Module Masterminds.

Inductive preId : Type :=
| PNum (n : N)
| PAlpha (s : string).

Record version := {
  major : N;
  minor : N;
  patch : N;
  pre : list preId;
  metadata : string
}.

(** *** Parsing *)

Definition isDigit (c : ascii) : bool :=
  (48 <=? N_of_ascii c)%N && (N_of_ascii c <=? 57)%N.

Definition isLetter (c : ascii) : bool :=
  ((65 <=? N_of_ascii c)%N && (N_of_ascii c <=? 90)%N) ||
  ((97 <=? N_of_ascii c)%N && (N_of_ascii c <=? 122)%N).

(** The characters of [allowed]: digits, letters and the hyphen. *)
Definition isAllowed (c : ascii) : bool :=
  isDigit c || isLetter c || Ascii.eqb c "-".

Fixpoint containsOnly (p : ascii → bool) (s : string) : bool :=
  match s with
  | EmptyString => true
  | String c s' => p c && containsOnly p s'
  end.

Fixpoint parseDigits (acc : N) (s : string) : option N :=
  match s with
  | EmptyString => Some acc
  | String c s' =>
      if isDigit c then parseDigits (10 * acc + (N_of_ascii c - 48))%N s'
      else None
  end.

(** [strconv.ParseUint(s, 10, 64)]. *)
Definition ParseUint (s : string) : option N :=
  match s with
  | EmptyString => None
  | _ =>
      match parseDigits 0 s with
      | Some n => if (n <? 2 ^ 64)%N then Some n else None
      | None => None
      end
  end.

(** [strings.Split(s, sep)] for a one-byte separator. *)
Fixpoint splitOn (sep : ascii) (s : string) : list string :=
  match s with
  | EmptyString => [EmptyString]
  | String c s' =>
      if Ascii.eqb c sep then EmptyString :: splitOn sep s'
      else match splitOn sep s' with
           | h :: t => String c h :: t
           | [] => [String c EmptyString]
           end
  end.

(** The text before the first [sep], and the text after it if there is
    one. *)
Fixpoint cutAt (sep : ascii) (s : string) : string * option string :=
  match s with
  | EmptyString => (EmptyString, None)
  | String c s' =>
      if Ascii.eqb c sep then (EmptyString, Some s')
      else let '(h, t) := cutAt sep s' in (String c h, t)
  end.

(** One identifier of a pre-release, after [validatePrerelease]: digits
    only without a leading zero, or allowed characters only. *)
Definition parsePreId (p : string) : option preId :=
  if containsOnly isDigit p then
    match p with
    | EmptyString => None
    | String "0" (String _ _) => None
    | _ => Some (match ParseUint p with
                 | Some n => PNum n
                 | None => PAlpha p
                 end)
    end
  else if containsOnly isAllowed p then Some (PAlpha p)
  else None.

Definition validIdentifier (p : string) : bool :=
  match p with
  | EmptyString => false
  | _ => containsOnly isAllowed p
  end.

Definition parseSegments (core : string) : option (N * N * N) :=
  match mapM ParseUint (splitOn "." core) with
  | Some [a] => Some (a, 0%N, 0%N)
  | Some [a; b] => Some (a, b, 0%N)
  | Some [a; b; c] => Some (a, b, c)
  | _ => None
  end.

Definition NewVersion (v : string) : option version :=
  let v := match v with String "v" r => r | _ => v end in
  let '(rest, meta) := cutAt "+" v in
  let '(core, prerelease) := cutAt "-" rest in
  '(ma, mi, pa) ← parseSegments core;
  ids ← match prerelease with
        | None => Some []
        | Some p => mapM parsePreId (splitOn "." p)
        end;
  m ← match meta with
      | None => Some EmptyString
      | Some m => if forallb validIdentifier (splitOn "." m) then Some m else None
      end;
  Some {| major := ma; minor := mi; patch := pa; pre := ids; metadata := m |}.

(** *** Precedence *)

(** Go's [<], [==], [>] on strings: bytewise lexicographic. *)
Fixpoint lexCompare {A} (cmp : A → A → comparison) (s o : list A) : comparison :=
  match s, o with
  | [], [] => Eq
  | [], _ :: _ => Lt
  | _ :: _, [] => Gt
  | x :: s', y :: o' =>
      match cmp x y with
      | Eq => lexCompare cmp s' o'
      | d => d
      end
  end.

Definition compareString (s o : string) : comparison :=
  lexCompare (λ a b, N.compare (N_of_ascii a) (N_of_ascii b))
             (list_ascii_of_string s) (list_ascii_of_string o).

(** [comparePrePart] on two identifiers: numbers by value, a number below
    every other identifier, the others as strings. *)
Definition comparePrePart (s o : preId) : comparison :=
  match s, o with
  | PNum si, PNum oi => N.compare si oi
  | PNum _, PAlpha _ => Lt
  | PAlpha _, PNum _ => Gt
  | PAlpha s, PAlpha o => compareString s o
  end.

(** The tail of [Compare]: a version without pre-release is above the same
    version with one; otherwise [comparePrerelease], where a missing
    identifier is below a present one. *)
Definition comparePre (ps po : list preId) : comparison :=
  match ps, po with
  | [], [] => Eq
  | [], _ :: _ => Gt
  | _ :: _, [] => Lt
  | _, _ => lexCompare comparePrePart ps po
  end.

Definition Compare (v o : version) : comparison :=
  match N.compare (major v) (major o) with
  | Eq =>
      match N.compare (minor v) (minor o) with
      | Eq =>
          match N.compare (patch v) (patch o) with
          | Eq => comparePre (pre v) (pre o)
          | d => d
          end
      | d => d
      end
  | d => d
  end.

(** A comparison that is reflexive, antisymmetric, transitive and
    compatible with its own equivalence. *)
Record Lawful {A} (cmp : A → A → comparison) : Prop := {
  lawful_refl : ∀ a, cmp a a = Eq;
  lawful_sym : ∀ a b, cmp b a = CompOpp (cmp a b);
  lawful_lt_trans : ∀ a b c, cmp a b = Lt → cmp b c = Lt → cmp a c = Lt;
  lawful_eq_l : ∀ a b c, cmp a b = Eq → cmp a c = cmp b c
}.

(** Breaking the ties of one comparison by another. *)
Definition thenCompare {A} (c1 c2 : A → A → comparison) (a b : A) : comparison :=
  match c1 a b with
  | Eq => c2 a b
  | d => d
  end.

End Masterminds.

(** The library as the program sees it; [checksNil] tells the two
    generations of [Equal] apart. *)
Definition mastermindsLib (checksNil : bool) : SemverLib := {|
  Version := Masterminds.version;
  NewVersion := Masterminds.NewVersion;
  Compare := Masterminds.Compare;
  EqualChecksNil := checksNil
|}.


(** ** The vocabulary of the design document *)

(** [VersionComparator]: the verdict on two version strings. *)
Inductive VersionComparisonResult : Type :=
| CmpEqual
| CmpLess
| CmpGreater
| Incomparable.

(** The two kinds of resolution error. *)
Inductive ResolutionError : Type :=
| FetchError
| NotFoundError.

Definition classify (e : error) : ResolutionError :=
  match e with
  | HttpError | DecodeError => FetchError
  | ChartNotFound _ => NotFoundError
  end.

Section Vocabulary.
Context {L : SemverLib}.

Definition parses (s : string) : bool := bool_decide (is_Some (NewVersion s)).

(** [compare(a, b)]: [Incomparable] as soon as one operand fails to
    parse. *)
Definition compare (a b : string) : VersionComparisonResult :=
  match NewVersion a, NewVersion b with
  | Some va, Some vb =>
      match Compare va vb with
      | Eq => CmpEqual
      | Lt => CmpLess
      | Gt => CmpGreater
      end
  | _, _ => Incomparable
  end.

(** The selection rule in the words of the design document: a running
    maximum seeded with the first entry, replaced whenever a later
    candidate parses and compares Greater than it. *)
Definition runningMaximum (first : string) (rest : list string) : string :=
  fold_left
    (λ maximum candidate,
       if parses candidate &&
          match compare candidate maximum with CmpGreater => true | _ => false end
       then candidate else maximum)
    rest first.

End Vocabulary.

(** A field of a source record that is present, of string type and not
    empty. *)
Definition wellFormedField (source : gmap string value) (key : string) : Prop :=
  ∃ s, source !! key = Some (VString s) ∧ s ≠ "".

Section Failures.
Context {N : Network}.

(** The network call errors, or the document cannot be decoded. *)
Definition fetchFails (url : string) : Prop :=
  httpGet url = None ∨ ∃ body, httpGet url = Some body ∧ yamlDecode body = None.

(** The chart name is absent from the entries, or has zero version
    records. *)
Definition chartMissing (url chartName : string) : Prop :=
  ∃ body index,
    httpGet url = Some body ∧ yamlDecode body = Some index ∧
    (index !! chartName = None ∨ index !! chartName = Some []).

End Failures.

(** The calls of [processHelmSource] that one application gives rise to,
    in order: application name and source record. *)
Definition applicationSources (object : gmap string value)
  : list (string * gmap string value) :=
  match assertMap (object !! "spec") with
  | None => []
  | Some spec =>
      (match assertMap (spec !! "source") with
       | Some source => [(GetName object, source)]
       | None => []
       end ++
       match assertSlice (spec !! "sources") with
       | Some sources =>
           omap (λ src, pair (GetName object) <$> assertMap (Some src)) sources
       | None => []
       end)%list
  end.

(** The calls of [processHelmSource] of one cycle, in order. *)
Definition cycleSources (items : list (gmap string value))
  : list (string * gmap string value) :=
  flat_map applicationSources items.

Section Calls.
Context {L : SemverLib} {N : Network}.

(** One call of [processHelmSource]. *)
Definition processCall (call : string * gmap string value) : M unit :=
  processHelmSource call.1 call.2.

(** The sample that [processHelmSource] publishes for a descriptor. *)
Definition sampleFor (appName : string) (d : HelmSourceDescriptor)
    (latest : string) (st : Z) : StatusSample :=
  {| applicationName := appName;
     chartName := dChartName d;
     repositoryURL := dRepositoryURL d;
     declaredVersion := dDeclaredVersion d;
     latestVersion := latest;
     status := st |}.

(** What one call of [processHelmSource] comes to, read off the checks,
    the resolution and the comparison. *)
Inductive verdict : Type :=
| NotHelm                      (* the record does not pass the checks *)
| Unresolved                   (* the resolution returned an error *)
| Published (s : StatusSample) (* the chart resolved: this sample is due *)
| Crashed.                     (* the scan or the comparison panicked *)

Definition callVerdict (call : string * gmap string value) : verdict :=
  match extract call.2 with
  | None => NotHelm
  | Some d =>
      match (getLatestChartVersion (dRepositoryURL d) (dChartName d)).1 with
      | Done (_, Some _) => Unresolved
      | Done (latest, None) =>
          match versionStatus (dDeclaredVersion d) latest with
          | Done st => Published (sampleFor call.1 d latest st)
          | Panic => Crashed
          end
      | Panic => Crashed
      end
  end.

(** The samples that the design document's [runOnce] owes for a sequence
    of sources: one per source that passes the checks and resolves, in
    order; nothing for a source that is no Helm source or does not
    resolve; nothing after a source on which the program panics. *)
Fixpoint expectedSamples (calls : list (string * gmap string value))
  : list StatusSample :=
  match calls with
  | [] => []
  | call :: calls' =>
      match callVerdict call with
      | NotHelm | Unresolved => expectedSamples calls'
      | Published s => s :: expectedSamples calls'
      | Crashed => []
      end
  end.

End Calls.

(** The source a sample speaks about: application, chart, repository and
    declared version. *)
Definition sampleSource (s : StatusSample) : string * string * string * string :=
  (applicationName s, chartName s, repositoryURL s, declaredVersion s).

(** The same four values for a call of [processHelmSource] whose record
    passes [extract]. *)
Definition callSource (call : string * gmap string value)
  : option (string * string * string * string) :=
  match extract call.2 with
  | Some d => Some (call.1, dChartName d, dRepositoryURL d, dDeclaredVersion d)
  | None => None
  end.

(** ** The gauge vector and the polling loop *)

(** The label values of one series of [helmVersionGauge], in the order of
    line 28 and of lines 153-159. *)
Abbreviation Labels := (string * string * string * string * string)%type.

Definition labelsOf (s : StatusSample) : Labels :=
  (applicationName s, chartName s, repositoryURL s, declaredVersion s,
   latestVersion s).

(** Modelled from the spec: the metrics sink behind
    [helmVersionGauge.WithLabelValues(..).Set(status)] is the Prometheus
    client library, which is not part of the repository.  The design
    document describes it as a store keyed by the five label values in
    which each update overwrites the entry of its key; a series is created
    by its first update. *)
Definition setGauge (registry : gmap Labels Z) (s : StatusSample) : gmap Labels Z :=
  <[labelsOf s := status s]> registry.

(** The gauge vector after the [Set] calls of a run, in the order they were
    made. *)
Definition publish (evs : list event) (registry : gmap Labels Z) : gmap Labels Z :=
  fold_left setGauge (samples evs) registry.

(** What [clientset.Resource(gvr).Namespace(namespace).List] returns in one
    iteration of the loop of [main]. *)
Inductive listing : Type :=
| ListError
| Listed (items : list (gmap string value)).

(** One iteration of the loop: the repositories as they are while it runs,
    and the listing it gets. *)
Record round := {
  roundNetwork : Network;
  roundListing : listing
}.

Section Loop.
Context {L : SemverLib}.

(** Lines 219-279: one iteration.  After a failed listing the program
    sleeps and goes on to the next iteration. *)
Definition pollRound (r : round) : M unit :=
  match roundListing r with
  | ListError => ret tt
  | Listed items => runCycle (N := roundNetwork r) items
  end.

(** Lines 218-280: the first iterations of [for { ... }], in order. *)
Definition pollLoop (rounds : list round) : M unit := forEach rounds pollRound.

End Loop.

(** ** A small world to run the program in *)

Definition demoIndex : Index :=
  {[ "nginx" := ["1.0.0"; "1.2.0"; "1.1.0"];
     "redis" := ["1.0.0"];
     "legacy" := ["bogus"; "1.0.0"];
     "nightly" := ["latest"; "edge"];
     "retired" := [] ]}.

(** One repository serving [demoIndex], one serving a document that does
    not decode, and no other host reachable. *)
Definition demoNetwork : Network := {|
  Body := option Index;
  httpGet url :=
    if String.eqb url "https://x//index.yaml" then Some (Some demoIndex)
    else if String.eqb url "https://garbled//index.yaml" then Some None
    else None;
  yamlDecode body := body
|}.

Definition helmSource (chart repoURL targetRevision : string) : gmap string value :=
  {[ "chart" := VString chart;
     "repoURL" := VString repoURL;
     "targetRevision" := VString targetRevision ]}.

Definition application (name : string) (spec : value) : gmap string value :=
  {[ "metadata" := VMap {[ "name" := VString name ]};
     "spec" := spec ]}.

(** Three applications: one with a single source, one whose repository is
    unreachable, one with both shapes and a non-map entry in [sources]. *)
Definition webApp : gmap string value :=
  application "web"
    (VMap {[ "source" := VMap (helmSource "nginx" "https://x" "1.2.0") ]}).

Definition cacheApp : gmap string value :=
  application "cache"
    (VMap {[ "source" := VMap (helmSource "redis" "https://down" "1.0.0") ]}).

Definition shopApp : gmap string value :=
  application "shop"
    (VMap {[ "source" := VMap (helmSource "nginx" "https://x" "1.0.0");
             "sources" := VSlice [VMap (helmSource "redis" "https://x/" "1.0.0");
                                  VString "git";
                                  VMap (helmSource "nginx" "https://x" "bogus")] ]}).

(** An application pinned to a tag that is no semantic version; the index
    lists the same tag first. *)
Definition nightlyApp : gmap string value :=
  application "nightly"
    (VMap {[ "source" := VMap (helmSource "nightly" "https://x" "latest") ]}).

(** The same repository after the release of nginx 1.3.0. *)
Definition laterIndex : Index :=
  {[ "nginx" := ["1.0.0"; "1.2.0"; "1.1.0"; "1.3.0"];
     "redis" := ["1.0.0"] ]}.

Definition laterNetwork : Network := {|
  Body := option Index;
  httpGet url :=
    if String.eqb url "https://x//index.yaml" then Some (Some laterIndex)
    else None;
  yamlDecode body := body
|}.

(** * Properties *)

(** ** The model of the semver library: [Compare] is a total preorder

    Shown by composition, one layer of [Compare] at a time. *)

Module MastermindsFacts.
Import Masterminds.

Example parse_release :
  NewVersion "1.2.0" =
  Some {| major := 1; minor := 2; patch := 0; pre := []; metadata := "" |}.
Proof. reflexivity. Qed.

Example parse_coerced :
  NewVersion "v2.1-rc.1+build.5" =
  Some {| major := 2; minor := 1; patch := 0;
          pre := [PAlpha "rc"; PNum 1]; metadata := "build.5" |}.
Proof. reflexivity. Qed.

Example parse_bogus :
  NewVersion "bogus" = None ∧ NewVersion "not-a-version" = None ∧
  NewVersion "" = None ∧ NewVersion "1.2.3.4" = None ∧
  NewVersion "1.0.0-01" = None ∧ NewVersion "latest" = None.
Proof. repeat split; reflexivity. Qed.

Lemma lawful_eq_r {A} (cmp : A → A → comparison) (H : Lawful cmp) a b c :
  cmp b c = Eq → cmp a b = cmp a c.
Proof.
  intros Hbc.
  rewrite (lawful_sym cmp H b a), (lawful_sym cmp H c a).
  f_equal. apply (lawful_eq_l cmp H). exact Hbc.
Qed.

Lemma Lawful_N : Lawful N.compare.
Proof.
  split.
  - apply N.compare_refl.
  - intros a b. apply N.compare_antisym.
  - intros a b c. rewrite !N.compare_lt_iff. lia.
  - intros a b c Hab. apply N.compare_eq in Hab. by subst.
Qed.

(** A lawful comparison of keys is a lawful comparison of what carries
    them. *)
Lemma Lawful_on {A B} (f : A → B) (cmp : B → B → comparison) :
  Lawful cmp → Lawful (λ a b, cmp (f a) (f b)).
Proof.
  intros H. split; intros.
  - apply (lawful_refl cmp H).
  - apply (lawful_sym cmp H).
  - eapply (lawful_lt_trans cmp H); eauto.
  - by apply (lawful_eq_l cmp H).
Qed.

Lemma Lawful_then {A} (c1 c2 : A → A → comparison) :
  Lawful c1 → Lawful c2 → Lawful (thenCompare c1 c2).
Proof.
  intros H1 H2. unfold thenCompare. split.
  - intros a. by rewrite (lawful_refl c1 H1), (lawful_refl c2 H2).
  - intros a b. rewrite (lawful_sym c1 H1 a b).
    destruct (c1 a b); simpl; [apply (lawful_sym c2 H2) | done | done].
  - intros a b c.
    destruct (c1 a b) eqn:Hab; [| |done]; destruct (c1 b c) eqn:Hbc; try done.
    + rewrite (lawful_eq_l c1 H1 a b c Hab), Hbc.
      apply (lawful_lt_trans c2 H2).
    + intros _ _. by rewrite (lawful_eq_l c1 H1 a b c Hab), Hbc.
    + intros _ _. by rewrite <-(lawful_eq_r c1 H1 a b c Hbc), Hab.
    + intros _ _. by rewrite (lawful_lt_trans c1 H1 a b c Hab Hbc).
  - intros a b c.
    destruct (c1 a b) eqn:Hab; try done. intros Hab2.
    rewrite (lawful_eq_l c1 H1 a b c Hab).
    destruct (c1 b c); try done. by apply (lawful_eq_l c2 H2).
Qed.

Lemma Lawful_lex {A} (cmp : A → A → comparison) :
  Lawful cmp → Lawful (lexCompare cmp).
Proof.
  intros H. split.
  - induction a as [|x a IH]; simpl; [done|].
    by rewrite (lawful_refl cmp H).
  - induction a as [|x a IH]; intros [|y b]; simpl; try done.
    rewrite (lawful_sym cmp H x y). destruct (cmp x y); simpl; auto.
  - induction a as [|x a IH]; intros [|y b] [|z c]; simpl; try done.
    destruct (cmp x y) eqn:Hxy; [| |done]; destruct (cmp y z) eqn:Hyz; try done.
    + rewrite (lawful_eq_l cmp H x y z Hxy), Hyz. apply IH.
    + intros _ _. by rewrite (lawful_eq_l cmp H x y z Hxy), Hyz.
    + intros _ _. by rewrite <-(lawful_eq_r cmp H x y z Hyz), Hxy.
    + intros _ _. by rewrite (lawful_lt_trans cmp H x y z Hxy Hyz).
  - induction a as [|x a IH]; intros [|y b] c; simpl; try done.
    destruct (cmp x y) eqn:Hxy; try done. intros Hab.
    destruct c as [|z c]; simpl; [done|].
    rewrite (lawful_eq_l cmp H x y z Hxy).
    destruct (cmp y z); try done. by apply IH.
Qed.

Lemma Lawful_compareString : Lawful compareString.
Proof.
  unfold compareString.
  apply (Lawful_on list_ascii_of_string (lexCompare _)).
  apply Lawful_lex.
  apply (Lawful_on N_of_ascii _ Lawful_N).
Qed.

Lemma Lawful_comparePrePart : Lawful comparePrePart.
Proof.
  pose proof Lawful_N as HN. pose proof Lawful_compareString as HS.
  split.
  - intros [n|s]; simpl; [apply (lawful_refl _ HN) | apply (lawful_refl _ HS)].
  - intros [n|s] [m|t]; simpl; try done;
      [apply (lawful_sym _ HN) | apply (lawful_sym _ HS)].
  - intros [n|s] [m|t] [k|u]; simpl; try done;
      [apply (lawful_lt_trans _ HN) | apply (lawful_lt_trans _ HS)].
  - intros [n|s] [m|t] c; simpl; try done; intros Hab; destruct c as [k|u]; simpl;
      try done; [by apply (lawful_eq_l _ HN) | by apply (lawful_eq_l _ HS)].
Qed.

Lemma Lawful_comparePre : Lawful comparePre.
Proof.
  pose proof (Lawful_lex _ Lawful_comparePrePart) as HL.
  split.
  - intros [|x a]; [done | apply (lawful_refl _ HL (x :: a))].
  - intros [|x a] [|y b]; try done. apply (lawful_sym _ HL (x :: a) (y :: b)).
  - intros [|x a] [|y b] [|z c]; try done.
    apply (lawful_lt_trans _ HL (x :: a) (y :: b) (z :: c)).
  - intros [|x a] [|y b] [|z c]; try done.
    apply (lawful_eq_l _ HL (x :: a) (y :: b) (z :: c)).
Qed.

Lemma Compare_layers v o :
  Compare v o =
  thenCompare (λ a b, N.compare (major a) (major b))
    (thenCompare (λ a b, N.compare (minor a) (minor b))
       (thenCompare (λ a b, N.compare (patch a) (patch b))
          (λ a b, comparePre (pre a) (pre b)))) v o.
Proof. reflexivity. Qed.

Lemma Lawful_Compare : Lawful Compare.
Proof.
  assert (Lawful (thenCompare (λ a b, N.compare (major a) (major b))
    (thenCompare (λ a b, N.compare (minor a) (minor b))
       (thenCompare (λ a b, N.compare (patch a) (patch b))
          (λ a b, comparePre (pre a) (pre b)))))) as H.
  { repeat apply Lawful_then;
      first [apply (Lawful_on _ _ Lawful_N) | apply (Lawful_on _ _ Lawful_comparePre)]. }
  split; intros.
  - rewrite Compare_layers. apply (lawful_refl _ H).
  - rewrite !Compare_layers. apply (lawful_sym _ H).
  - rewrite !Compare_layers in *. by eapply (lawful_lt_trans _ H).
  - rewrite !Compare_layers in *. by apply (lawful_eq_l _ H).
Qed.

End MastermindsFacts.

Lemma mastermindsLib_order checksNil : SemverOrder (mastermindsLib checksNil).
Proof.
  pose proof MastermindsFacts.Lawful_Compare as H.
  split; simpl.
  - apply (Masterminds.lawful_refl _ H).
  - apply (Masterminds.lawful_sym _ H).
  - apply (Masterminds.lawful_lt_trans _ H).
  - apply (Masterminds.lawful_eq_l _ H).
Qed.

(** ** Strings *)

Lemma HasSuffix_spec s suffix :
  HasSuffix s suffix = true ↔ ∃ p, s = p ++ suffix.
Proof.
  induction s as [|c s IH]; cbn [HasSuffix].
  - rewrite orb_false_r, String.eqb_eq. split.
    + intros <-. by exists "".
    + intros [[|c p] Hp]; simpl in Hp; [done | discriminate].
  - rewrite orb_true_iff, String.eqb_eq, IH. split.
    + intros [<- | [p ->]]; [by exists "" | by exists (String c p)].
    + intros [[|c' p] Hp]; simpl in Hp; [by left | right].
      injection Hp as -> ->. by exists p.
Qed.

Lemma HasSuffix_append s suffix : HasSuffix (s ++ suffix) suffix = true.
Proof. apply HasSuffix_spec. by exists s. Qed.

Lemma append_assoc (s t u : string) : (s ++ t) ++ u = s ++ (t ++ u).
Proof.
  induction s as [|c s IH]; [done|].
  change (String c ((s ++ t) ++ u) = String c (s ++ t ++ u)). by f_equal.
Qed.

Lemma append_length s t : String.length (s ++ t) = String.length s + String.length t.
Proof.
  induction s as [|c s IH]; [done|].
  change (S (String.length (s ++ t)) = S (String.length s + String.length t)).
  by f_equal.
Qed.

(** ** Computations *)

Lemma bind_unfold {A B} (c : M A) (k : A → M B) : c ≫= k = bind c k.
Proof. reflexivity. Qed.

Lemma bind_ret_l {A B} (a : A) (k : A → M B) : bind (ret a) k = k a.
Proof. unfold bind, ret. by destruct (k a). Qed.

Lemma bind_assoc {A B C} (c : M A) (k : A → M B) (h : B → M C) :
  bind (bind c k) h = bind c (λ a, bind (k a) h).
Proof.
  destruct c as [[a|] evs]; simpl; [|done].
  destruct (k a) as [[b|] evs1]; simpl; [|done].
  destruct (h b) as [o evs2]. by rewrite app_assoc.
Qed.

(** A step that completes adds its events in front of what follows. *)
Lemma bind_Done {A B} (c : M A) (k : A → M B) a evs :
  c = (Done a, evs) → bind c k = ((k a).1, (evs ++ (k a).2)%list).
Proof. intros ->. simpl. by destruct (k a). Qed.

Lemma bind_Panic {A B} (c : M A) (k : A → M B) evs :
  c = (Panic, evs) → bind c k = (Panic, evs).
Proof. by intros ->. Qed.

(** Every event of [c ≫= k] is an event of [c] or of some [k a]. *)
Lemma bind_events {A B} (P : event → Prop) (c : M A) (k : A → M B) :
  Forall P c.2 → (∀ a, Forall P (k a).2) → Forall P (bind c k).2.
Proof.
  intros Hc Hk. destruct c as [[a|] evs]; simpl in *; [|done].
  specialize (Hk a). destruct (k a) as [o evs']. simpl in *.
  by apply Forall_app.
Qed.

Lemma bind_ext {A B} (c c' : M A) (k k' : A → M B) :
  c = c' → (∀ a, k a = k' a) → bind c k = bind c' k'.
Proof.
  intros <- H. destruct c as [[a|] evs]; simpl; [|done]. by rewrite H.
Qed.

Lemma bind_ret_r (c : M unit) : bind c (λ _, ret tt) = c.
Proof. destruct c as [[[]|] evs]; simpl; by rewrite ?app_nil_r. Qed.

Lemma forEach_app {A} (l1 l2 : list A) (body : A → M unit) :
  forEach (l1 ++ l2)%list body = bind (forEach l1 body) (λ _, forEach l2 body).
Proof.
  induction l1 as [|x l1 IH]; cbn [forEach app].
  - by rewrite bind_ret_l.
  - by rewrite !bind_unfold, bind_assoc, IH.
Qed.

Lemma forEach_events {A} (P : event → Prop) (l : list A) (body : A → M unit) :
  (∀ x, x ∈ l → Forall P (body x).2) → Forall P (forEach l body).2.
Proof.
  induction l as [|x l IH]; intros H; cbn [forEach]; [constructor|].
  rewrite bind_unfold. apply bind_events.
  - apply H. by left.
  - intros _. apply IH. intros y Hy. apply H. by right.
Qed.

(** A loop whose every iteration completes without an event does
    nothing. *)
Lemma forEach_silent {A} (l : list A) (body : A → M unit) :
  (∀ x, x ∈ l → body x = ret tt) → forEach l body = ret tt.
Proof.
  induction l as [|x l IH]; intros H; cbn [forEach]; [done|].
  rewrite bind_unfold, (H x) by (by left). rewrite bind_ret_l.
  apply IH. intros y Hy. apply H. by right.
Qed.

(** The loop over a slice of dynamically typed values visits exactly the
    entries that pass the type assertion. *)
Lemma forEach_omap {A B} (f : A → option B) (l : list A) (body : B → M unit) :
  forEach l (λ x, match f x with Some y => body y | None => ret tt end) =
  forEach (omap f l) body.
Proof.
  induction l as [|x l IH]; cbn [forEach omap list_omap]; [done|].
  destruct (f x) as [y|]; cbn [forEach].
  - by rewrite IH.
  - by rewrite bind_unfold, bind_ret_l.
Qed.

Lemma samples_app evs1 evs2 :
  samples (evs1 ++ evs2)%list = (samples evs1 ++ samples evs2)%list.
Proof. apply omap_app. Qed.

Lemma fetches_app evs1 evs2 :
  fetches (evs1 ++ evs2)%list = (fetches evs1 ++ fetches evs2)%list.
Proof. apply omap_app. Qed.

Lemma elem_of_samples s evs : s ∈ samples evs ↔ EvGauge s ∈ evs.
Proof.
  unfold samples. rewrite list_elem_of_omap. split.
  - intros [[u|s'] [He Hs]]; [done|]. by injection Hs as ->.
  - intros He. by exists (EvGauge s).
Qed.

(** ** Order facts used by the selection *)

Section Order.
Context {L : SemverLib} {O : SemverOrder L}.

Lemma Compare_eq_r (a b c : Version) :
  Compare b c = Eq → Compare a b = Compare a c.
Proof.
  intros Hbc. rewrite (Compare_sym b a), (Compare_sym c a).
  f_equal. by apply Compare_eq_l.
Qed.

Lemma Compare_Gt_Lt (a b : Version) : Compare a b = Gt → Compare b a = Lt.
Proof. intros H. by rewrite Compare_sym, H. Qed.

Lemma Compare_le_trans (a b c : Version) :
  Compare a b ≠ Gt → Compare b c ≠ Gt → Compare a c ≠ Gt.
Proof.
  intros Hab Hbc.
  destruct (Compare a b) eqn:Eab; [| |done].
  - by rewrite (Compare_eq_l a b c Eab).
  - destruct (Compare b c) eqn:Ebc; [| |done].
    + by rewrite <-(Compare_eq_r a b c Ebc), Eab.
    + by rewrite (Compare_lt_trans a b c Eab Ebc).
Qed.

End Order.

(** ** The scan of [getLatestChartVersion] *)

Section Scan.
Context {L : SemverLib}.

Lemma parses_true s : parses s = true ↔ is_Some (NewVersion s).
Proof. unfold parses. apply bool_decide_eq_true. Qed.

Lemma parses_false s : parses s = false ↔ NewVersion s = None.
Proof.
  unfold parses. rewrite bool_decide_eq_false, eq_None_not_Some. tauto.
Qed.

(** Malformed entries after the seed are passed over. *)
Lemma scanVersions_skip latest v rest :
  NewVersion v = None → scanVersions latest (v :: rest) = scanVersions latest rest.
Proof. intros H. simpl. by rewrite H. Qed.

(** When no later entry parses the seed is returned, parsable or not. *)
Lemma scanVersions_all_malformed first rest :
  Forall (λ v, NewVersion v = None) rest → scanVersions first rest = Done first.
Proof.
  induction 1 as [|v rest Hv _ IH]; [done|].
  by rewrite scanVersions_skip.
Qed.

(** A malformed seed followed, after malformed entries only, by an entry
    that parses: [next.GreaterThan(current)] is called with [current] nil. *)
Lemma scanVersions_nil_seed first skipped v rest :
  NewVersion first = None →
  Forall (λ v, NewVersion v = None) skipped →
  is_Some (NewVersion v) →
  scanVersions first (skipped ++ v :: rest) = Panic.
Proof.
  intros Hfirst Hskipped [next Hv].
  induction Hskipped as [|w skipped Hw _ IH]; simpl.
  - by rewrite Hv, Hfirst.
  - by rewrite Hw.
Qed.

Lemma first_parsable (rest : list string) :
  Exists (λ v, is_Some (NewVersion v)) rest →
  ∃ skipped v rest',
    rest = (skipped ++ v :: rest')%list ∧
    Forall (λ w, NewVersion w = None) skipped ∧ is_Some (NewVersion v).
Proof.
  induction rest as [|w rest IH]; intros H; [by apply Exists_nil in H|].
  destruct (NewVersion w) as [x|] eqn:Hw.
  - exists [], w, rest. split; [done|]. split; [constructor | by rewrite Hw].
  - apply Exists_cons in H as [[? H]|H]; [congruence|].
    destruct (IH H) as (skipped & v & rest' & -> & Hskipped & Hv).
    exists (w :: skipped), v, rest'. split; [done|]. split; [by constructor | done].
Qed.

(** With a seed that parses, the loop is the running maximum of the design
    document, and the running maximum always parses. *)
Lemma scanVersions_runningMaximum first rest :
  is_Some (NewVersion first) →
  scanVersions first rest = Done (runningMaximum first rest) ∧
  is_Some (NewVersion (runningMaximum first rest)).
Proof.
  revert first. induction rest as [|v rest IH]; intros first Hfirst.
  - done.
  - destruct Hfirst as [current Hcur].
    unfold runningMaximum. cbn [scanVersions fold_left].
    unfold compare. rewrite Hcur.
    destruct (NewVersion v) as [next|] eqn:Hv.
    + assert (parses v = true) as -> by (apply parses_true; eauto).
      cbn [GreaterThan andb].
      destruct (Compare next current); apply IH; eauto.
    + assert (parses v = false) as -> by (by apply parses_false).
      apply IH; eauto.
Qed.

Lemma runningMaximum_all_malformed first rest :
  Forall (λ v, NewVersion v = None) rest → runningMaximum first rest = first.
Proof.
  unfold runningMaximum. induction 1 as [|v rest Hv _ IH]; [done|].
  cbn [fold_left]. apply parses_false in Hv. by rewrite Hv.
Qed.

Lemma runningMaximum_elem first rest : runningMaximum first rest ∈ first :: rest.
Proof.
  unfold runningMaximum. revert first.
  induction rest as [|v rest IH]; intros first; cbn [fold_left].
  - by left.
  - match goal with |- fold_left _ _ ?m ∈ _ => specialize (IH m) as Hm end.
    apply elem_of_cons in Hm as [Hm|Hm]; [|by do 2 right].
    rewrite Hm. destruct (_ && _); [right; by left | by left].
Qed.

(** The running maximum is an upper bound of every entry that parses. *)
Lemma runningMaximum_upper_bound {O : SemverOrder L} first rest seed :
  NewVersion first = Some seed →
  ∃ top, NewVersion (runningMaximum first rest) = Some top ∧
         Compare seed top ≠ Gt ∧
         ∀ e v, e ∈ rest → NewVersion e = Some v → Compare v top ≠ Gt.
Proof.
  revert first seed. induction rest as [|c rest IH]; intros first seed Hseed.
  - exists seed. split; [done|]. split; [by rewrite Compare_refl|].
    intros e v He. by apply elem_of_nil in He.
  - unfold runningMaximum. cbn [fold_left]. unfold compare. rewrite Hseed.
    destruct (NewVersion c) as [vc|] eqn:Hc.
    + assert (parses c = true) as -> by (apply parses_true; eauto).
      cbn [andb]. destruct (Compare vc seed) eqn:Hcmp.
      * destruct (IH first seed Hseed) as (top & Htop & Hle & Hrest).
        exists top. split; [done|]. split; [done|].
        intros e v He Hv. apply elem_of_cons in He as [->|He]; [|eauto].
        assert (v = vc) as -> by congruence.
        apply (Compare_le_trans vc seed top); [by rewrite Hcmp | done].
      * destruct (IH first seed Hseed) as (top & Htop & Hle & Hrest).
        exists top. split; [done|]. split; [done|].
        intros e v He Hv. apply elem_of_cons in He as [->|He]; [|eauto].
        assert (v = vc) as -> by congruence.
        apply (Compare_le_trans vc seed top); [by rewrite Hcmp | done].
      * destruct (IH c vc Hc) as (top & Htop & Hle & Hrest).
        exists top. split; [done|]. split.
        -- apply (Compare_le_trans seed vc top); [|done].
           by rewrite (Compare_Gt_Lt _ _ Hcmp).
        -- intros e v He Hv. apply elem_of_cons in He as [->|He]; [|eauto].
           by assert (v = vc) as -> by congruence.
    + assert (parses c = false) as -> by (by apply parses_false).
      cbn [andb]. destruct (IH first seed Hseed) as (top & Htop & Hle & Hrest).
      exists top. split; [done|]. split; [done|].
      intros e v He Hv. apply elem_of_cons in He as [->|He]; [congruence|eauto].
Qed.

End Scan.

(** ** [getLatestChartVersion] *)

Section Resolver.
Context {L : SemverLib} {N : Network}.

(** The function in one piece: its outcome by cases on what the repository
    answers, and the single event it causes. *)
Lemma getLatestChartVersion_unfold repoURL chartName :
  getLatestChartVersion repoURL chartName =
  (match httpGet (repoURL ++ "/index.yaml") with
   | None => Done ("", Some HttpError)
   | Some body =>
       match yamlDecode body with
       | None => Done ("", Some DecodeError)
       | Some index =>
           match index !! chartName with
           | None | Some [] => Done ("", Some (ChartNotFound chartName))
           | Some (first :: rest) =>
               match scanVersions first rest with
               | Done latest => Done (latest, None)
               | Panic => Panic
               end
           end
       end
   end,
   [EvFetch (repoURL ++ "/index.yaml")]).
Proof.
  unfold getLatestChartVersion.
  destruct (httpGet _) as [body|]; [|done].
  destruct (yamlDecode body) as [index|]; [|done].
  destruct (index !! chartName) as [[|first rest]|]; [done| |done].
  unfold liftOutcome. by destruct (scanVersions first rest).
Qed.

Lemma getLatestChartVersion_events repoURL chartName :
  (getLatestChartVersion repoURL chartName).2 = [EvFetch (repoURL ++ "/index.yaml")].
Proof. by rewrite getLatestChartVersion_unfold. Qed.

Lemma getLatestChartVersion_found repoURL chartName body index first rest :
  httpGet (repoURL ++ "/index.yaml") = Some body →
  yamlDecode body = Some index →
  index !! chartName = Some (first :: rest) →
  (getLatestChartVersion repoURL chartName).1 =
  match scanVersions first rest with
  | Done latest => Done (latest, None)
  | Panic => Panic
  end.
Proof.
  intros Hget Hdec Hlook.
  by rewrite getLatestChartVersion_unfold, Hget, Hdec, Hlook.
Qed.

(** C2 (what the code does).  For a non-empty sequence of version entries
    whose first entry parses, or none of whose later entries parses,
    [getLatestChartVersion] returns the running maximum of the design
    document (seeded with the first entry, replaced exactly when a later
    candidate parses and compares Greater): one of the entries, with no
    entry that parses above it in semver order.  For a sequence whose
    first entry is malformed and that has a later entry that parses, it
    panics and returns nothing. *)
Theorem getLatestChartVersion_selection {O : SemverOrder L}
    repoURL chartName body index first rest :
  httpGet (repoURL ++ "/index.yaml") = Some body →
  yamlDecode body = Some index →
  index !! chartName = Some (first :: rest) →
  let latest := runningMaximum first rest in
  (is_Some (NewVersion first) ∨ Forall (λ v, NewVersion v = None) rest →
     (getLatestChartVersion repoURL chartName).1 = Done (latest, None) ∧
     latest ∈ first :: rest ∧
     ∀ e v, e ∈ first :: rest → NewVersion e = Some v →
            ∃ top, NewVersion latest = Some top ∧ Compare v top ≠ Gt) ∧
  (NewVersion first = None → Exists (λ v, is_Some (NewVersion v)) rest →
     (getLatestChartVersion repoURL chartName).1 = Panic).
Proof.
  intros Hget Hdec Hlook latest.
  rewrite (getLatestChartVersion_found _ _ _ _ _ _ Hget Hdec Hlook).
  split.
  - intros Hseed. split; [|split].
    + destruct Hseed as [Hseed|Hrest].
      * by destruct (scanVersions_runningMaximum first rest Hseed) as [-> _].
      * unfold latest. rewrite (runningMaximum_all_malformed _ _ Hrest).
        by rewrite (scanVersions_all_malformed _ _ Hrest).
    + apply runningMaximum_elem.
    + intros e v He Hv.
      destruct (NewVersion first) as [seed|] eqn:Hfirst.
      * destruct (runningMaximum_upper_bound first rest seed Hfirst)
          as (top & Htop & Hle & Hrest).
        exists top. split; [done|].
        apply elem_of_cons in He as [->|He]; [|eauto].
        by assert (v = seed) as -> by congruence.
      * destruct Hseed as [[? ?]|Hrest]; [done|].
        apply elem_of_cons in He as [->|He]; [congruence|].
        rewrite Forall_forall in Hrest. specialize (Hrest e He). congruence.
  - intros Hfirst Hex.
    apply first_parsable in Hex as (skipped & v & rest' & -> & Hskipped & Hv).
    by rewrite scanVersions_nil_seed.
Qed.

(** C3 (what the code does).  A malformed first entry followed, after
    malformed entries only, by one that parses makes the scan call
    [GreaterThan] on a nil version: the resolution panics instead of
    returning. *)
Theorem getLatestChartVersion_nil_seed_panics
    repoURL chartName body index first skipped v rest :
  httpGet (repoURL ++ "/index.yaml") = Some body →
  yamlDecode body = Some index →
  index !! chartName = Some (first :: skipped ++ v :: rest)%list →
  NewVersion first = None →
  Forall (λ w, NewVersion w = None) skipped →
  is_Some (NewVersion v) →
  (getLatestChartVersion repoURL chartName).1 = Panic.
Proof.
  intros Hget Hdec Hlook Hfirst Hskipped Hv.
  rewrite (getLatestChartVersion_found _ _ _ _ _ _ Hget Hdec Hlook).
  by rewrite scanVersions_nil_seed.
Qed.

(** The part of C3 that the code keeps: when every entry is malformed the
    first listed string is returned. *)
Lemma getLatestChartVersion_all_malformed repoURL chartName body index first rest :
  httpGet (repoURL ++ "/index.yaml") = Some body →
  yamlDecode body = Some index →
  index !! chartName = Some (first :: rest) →
  NewVersion first = None →
  Forall (λ w, NewVersion w = None) rest →
  (getLatestChartVersion repoURL chartName).1 = Done (first, None).
Proof.
  intros Hget Hdec Hlook Hfirst Hrest.
  rewrite (getLatestChartVersion_found _ _ _ _ _ _ Hget Hdec Hlook).
  by rewrite scanVersions_all_malformed.
Qed.

(** C4 (what the code does).  Called with a URL that ends with the
    separator, [getLatestChartVersion] issues exactly one fetch, of the
    URL followed by ["/index.yaml"]: the separator is doubled, and the
    address differs from the URL followed by ["index.yaml"]. *)
Theorem getLatestChartVersion_fetch_url repoURL chartName :
  HasSuffix repoURL "/" = true →
  fetches (getLatestChartVersion repoURL chartName).2 = [repoURL ++ "/index.yaml"] ∧
  HasSuffix (repoURL ++ "/index.yaml") "//index.yaml" = true ∧
  repoURL ++ "/index.yaml" ≠ repoURL ++ "index.yaml".
Proof.
  intros Hsep. rewrite getLatestChartVersion_events. split; [done|]. split.
  - apply HasSuffix_spec in Hsep as [base ->]. apply HasSuffix_spec.
    exists base. by rewrite append_assoc.
  - intros Heq. apply (f_equal String.length) in Heq.
    rewrite !append_length in Heq. simpl in Heq. lia.
Qed.

(** Each answer of the repository settles every clause of the next theorem
    by inspection. *)
Local Ltac by_cases :=
  repeat split; intros; simplify_eq/=;
  first [by eauto 10 | firstorder congruence].

(** C5.  [getLatestChartVersion] returns an error, with the empty string
    for the version, exactly when the fetch fails (network error or
    undecodable document: a FetchError) or the chart is missing (absent
    from the entries or without version records: a NotFoundError); an
    absent chart yields the error result, not a panic. *)
Theorem getLatestChartVersion_errors repoURL chartName :
  let url := repoURL ++ "/index.yaml" in
  let r := (getLatestChartVersion repoURL chartName).1 in
  ((∃ version e, r = Done (version, Some e)) ↔
     fetchFails url ∨ chartMissing url chartName) ∧
  (∀ version e, r = Done (version, Some e) →
     version = "" ∧
     (classify e = FetchError ↔ fetchFails url) ∧
     (classify e = NotFoundError ↔ chartMissing url chartName)) ∧
  (∀ body index,
     httpGet url = Some body → yamlDecode body = Some index →
     index !! chartName = None →
     r = Done ("", Some (ChartNotFound chartName))).
Proof.
  intros url r. unfold r, url, fetchFails, chartMissing.
  rewrite getLatestChartVersion_unfold. cbn [fst].
  destruct (httpGet _) as [body|] eqn:Hget; [|by_cases].
  destruct (yamlDecode body) as [index|] eqn:Hdec; [|by_cases].
  destruct (index !! chartName) as [[|first rest]|] eqn:Hlook;
    [by_cases| |by_cases].
  destruct (scanVersions first rest) as [latest|]; by_cases.
Qed.

End Resolver.

(** ** The checks of [processHelmSource] before the repository is contacted *)

Lemma wellFormedField_dec source key :
  wellFormedField source key ∨ ¬ wellFormedField source key.
Proof.
  unfold wellFormedField.
  destruct (source !! key) as [[| | |s| |]|];
    try (right; by intros (? & ? & ?)).
  destruct (decide (s = "")) as [->|Hs].
  - right. by intros (? & [= <-] & ?).
  - left. eauto.
Qed.

Lemma eqb_empty_false s : String.eqb s "" = false ↔ s ≠ "".
Proof. apply String.eqb_neq. Qed.

(** [extract] succeeds exactly on three well-formed fields, and then
    carries them, the repository URL normalized. *)
Lemma extract_Some source d :
  extract source = Some d ↔
  ∃ c u v,
    source !! "chart" = Some (VString c) ∧ c ≠ "" ∧
    source !! "repoURL" = Some (VString u) ∧ u ≠ "" ∧
    source !! "targetRevision" = Some (VString v) ∧ v ≠ "" ∧
    d = {| dChartName := c; dRepositoryURL := normalizeRepoURL u;
           dDeclaredVersion := v |}.
Proof.
  unfold extract, extractFields.
  destruct (source !! "chart") as [[| | |c| |]|]; cbn [assertString fst];
    try (split; [done | by intros (? & ? & ? & ? & ?)]);
    try (split; [done | by intros (? & ? & ? & ? & [] & ?)]).
  destruct (String.eqb c "") eqn:Hc; cbn [orb].
  { apply String.eqb_eq in Hc as ->.
    split; [done | intros (? & ? & ? & [= <-] & ? & _); done]. }
  apply eqb_empty_false in Hc.
  destruct (source !! "repoURL") as [[| | |u| |]|]; cbn [assertString fst orb];
    try (split; [done | by intros (? & ? & ? & _ & _ & ? & _)]).
  destruct (String.eqb u "") eqn:Hu; cbn [orb].
  { apply String.eqb_eq in Hu as ->.
    split; [done | intros (? & ? & ? & _ & _ & [= <-] & ? & _); done]. }
  apply eqb_empty_false in Hu.
  destruct (source !! "targetRevision") as [[| | |v| |]|];
    cbn [assertString fst orb];
    try (split; [done | by intros (? & ? & ? & _ & _ & _ & _ & ? & _)]).
  destruct (String.eqb v "") eqn:Hv.
  { apply String.eqb_eq in Hv as ->.
    split; [done | intros (? & ? & ? & _ & _ & _ & _ & [= <-] & ? & _); done]. }
  apply eqb_empty_false in Hv.
  split.
  - intros [= <-]. by exists c, u, v.
  - by intros (? & ? & ? & [= <-] & _ & [= <-] & _ & [= <-] & _ & ->).
Qed.

Lemma normalizeRepoURL_cases u :
  (HasSuffix u "/" = false → normalizeRepoURL u = u ++ "/") ∧
  (HasSuffix u "/" = true → normalizeRepoURL u = u) ∧
  HasSuffix (normalizeRepoURL u) "/" = true.
Proof.
  unfold normalizeRepoURL.
  destruct (HasSuffix u "/") eqn:Hsep; cbn [negb]; split_and!; try done.
  apply HasSuffix_append.
Qed.

(** C6.  [extract] returns absent exactly when the record has no [chart]
    key or one of the fields read by the keys [chart], [repoURL] and
    [targetRevision] is missing, not a string, or empty; otherwise the
    descriptor carries the three extracted strings (the repository URL
    through the normalization of C7). *)
Theorem extract_absent_iff source :
  (extract source = None ↔
     source !! "chart" = None ∨
     ∃ key, key ∈ ["chart"; "repoURL"; "targetRevision"] ∧
            ¬ wellFormedField source key) ∧
  (∀ d, extract source = Some d →
     extractFields source
       = (dChartName d, (assertString (source !! "repoURL")).1, dDeclaredVersion d) ∧
     source !! "chart" = Some (VString (dChartName d)) ∧
     (∃ u, source !! "repoURL" = Some (VString u) ∧
           dRepositoryURL d = normalizeRepoURL u) ∧
     source !! "targetRevision" = Some (VString (dDeclaredVersion d))).
Proof.
  split.
  - destruct (extract source) as [d|] eqn:Hex.
    + apply extract_Some in Hex as (c & u & v & Hc & Hc' & Hu & Hu' & Hv & Hv' & _).
      split; [done|]. intros [Hnone | (key & Hkey & Hbad)]; [congruence|].
      exfalso. apply Hbad. unfold wellFormedField.
      rewrite !elem_of_cons in Hkey.
      destruct Hkey as [->|[->|[->|Hnil]]]; eauto.
      by apply elem_of_nil in Hnil.
    + split; [intros _|done].
      destruct (wellFormedField_dec source "chart") as [Hc|Hc].
      2:{ right. exists "chart". split; [by left | done]. }
      destruct (wellFormedField_dec source "repoURL") as [Hu|Hu].
      2:{ right. exists "repoURL". split; [right; by left | done]. }
      destruct (wellFormedField_dec source "targetRevision") as [Hv|Hv].
      2:{ right. exists "targetRevision". split; [do 2 right; by left | done]. }
      destruct Hc as (c & Hc & Hc'), Hu as (u & Hu & Hu'), Hv as (v & Hv & Hv').
      assert (extract source = Some {| dChartName := c;
                dRepositoryURL := normalizeRepoURL u; dDeclaredVersion := v |}) as Hd.
      { apply extract_Some. by exists c, u, v. }
      congruence.
  - intros d Hex.
    apply extract_Some in Hex as (c & u & v & Hc & _ & Hu & _ & Hv & _ & ->).
    unfold extractFields. rewrite Hc, Hu, Hv. simpl. eauto 10.
Qed.

(** C7.  For every descriptor produced by [extract] the repository URL is
    the extracted [repoURL] with the separator appended when it does not
    end with one, and unchanged when it does; in both cases it ends with
    the separator. *)
Theorem extract_normalizes source d :
  extract source = Some d →
  ∃ u, source !! "repoURL" = Some (VString u) ∧
       (HasSuffix u "/" = false → dRepositoryURL d = u ++ "/") ∧
       (HasSuffix u "/" = true → dRepositoryURL d = u) ∧
       HasSuffix (dRepositoryURL d) "/" = true.
Proof.
  intros Hex.
  apply extract_Some in Hex as (c & u & v & _ & _ & Hu & _ & _ & _ & ->).
  exists u. split; [done|]. apply normalizeRepoURL_cases.
Qed.

(** ** The cycle *)

Section Cycle.
Context {L : SemverLib} {N : Network}.

(** The gauge value is 1 exactly when both versions parse and compare
    equal, whichever generation of [Equal] is linked. *)
Lemma versionStatus_Done chartVersion latest st :
  versionStatus chartVersion latest = Done st →
  (st = 1 ∨ st = 0)%Z ∧
  (st = 1%Z ↔ ∃ vc vl, NewVersion chartVersion = Some vc ∧
                        NewVersion latest = Some vl ∧ Compare vc vl = Eq).
Proof.
  unfold versionStatus, Equal.
  destruct (NewVersion latest) as [vl|].
  2:{ intros [= <-]. split; [by right|]. split; [done|]. by intros (? & ? & ? & ? & ?). }
  destruct (NewVersion chartVersion) as [vc|].
  - destruct (Compare vc vl) eqn:Hcmp; intros [= <-].
    + split; [by left|]. split; [eauto|done].
    + split; [by right|]. split; [done|]. intros (? & ? & [= <-] & [= <-] & ?). congruence.
    + split; [by right|]. split; [done|]. intros (? & ? & [= <-] & [= <-] & ?). congruence.
  - destruct EqualChecksNil; [|done]. intros [= <-].
    split; [by right|]. split; [done|]. by intros (? & ? & ? & ? & ?).
Qed.

(** [reportSource] by cases on the resolution. *)
Lemma reportSource_unfold appName d :
  reportSource appName d =
  let url := dRepositoryURL d ++ "/index.yaml" in
  match (getLatestChartVersion (dRepositoryURL d) (dChartName d)).1 with
  | Panic => (Panic, [EvFetch url])
  | Done (_, Some _) => (Done tt, [EvFetch url])
  | Done (latest, None) =>
      match versionStatus (dDeclaredVersion d) latest with
      | Done st => (Done tt, [EvFetch url; EvGauge (sampleFor appName d latest st)])
      | Panic => (Panic, [EvFetch url])
      end
  end.
Proof.
  unfold reportSource. rewrite bind_unfold.
  destruct (getLatestChartVersion _ _) as [o evs] eqn:Hr.
  pose proof (getLatestChartVersion_events (dRepositoryURL d) (dChartName d)) as Hev.
  rewrite Hr in Hev. simpl in Hev. subst evs. cbn [fst].
  destruct o as [[latest [e|]]|]; try done.
  cbn [bind]. rewrite bind_unfold. unfold liftOutcome.
  by destruct (versionStatus _ _).
Qed.

(** A resolution error skips the descriptor: one fetch, no sample, and
    the call returns. *)
Lemma reportSource_error appName d version e :
  (getLatestChartVersion (dRepositoryURL d) (dChartName d)).1 = Done (version, Some e) →
  reportSource appName d = (Done tt, [EvFetch (dRepositoryURL d ++ "/index.yaml")]).
Proof. intros Hr. by rewrite reportSource_unfold, Hr. Qed.

(** Every sample of [reportSource] is the sample of a resolved
    descriptor. *)
Lemma reportSource_samples appName d s :
  s ∈ samples (reportSource appName d).2 →
  ∃ latest st,
    (getLatestChartVersion (dRepositoryURL d) (dChartName d)).1 = Done (latest, None) ∧
    versionStatus (dDeclaredVersion d) latest = Done st ∧
    s = sampleFor appName d latest st.
Proof.
  rewrite reportSource_unfold. cbn zeta.
  destruct (getLatestChartVersion _ _).1 as [[latest [e|]]|];
    try (intros Hs; by apply elem_of_nil in Hs).
  destruct (versionStatus _ latest) as [st|] eqn:Hst;
    try (intros Hs; by apply elem_of_nil in Hs).
  intros Hs. apply elem_of_samples in Hs.
  apply elem_of_cons in Hs as [?|Hs]; [done|].
  apply list_elem_of_singleton in Hs as [= ->]. by exists latest, st.
Qed.

Lemma forEach_ext {A} (l : list A) (f g : A → M unit) :
  (∀ x, f x = g x) → forEach l f = forEach l g.
Proof.
  intros H. induction l as [|x l IH]; [done|].
  cbn [forEach]. by rewrite H, IH.
Qed.

(** The loop body of [main] is the sequence of its calls of
    [processHelmSource]. *)
Lemma processApplication_sources object :
  processApplication object = forEach (applicationSources object) processCall.
Proof.
  unfold processApplication, applicationSources.
  destruct (assertMap (object !! "spec")) as [spec|]; [|done].
  assert (∀ sources,
    forEach sources (processSourcesEntry (GetName object)) =
    forEach (omap (λ src, pair (GetName object) <$> assertMap (Some src)) sources)
            processCall) as Hsources.
  { intros sources. rewrite <-forEach_omap. apply forEach_ext.
    intros src. unfold processSourcesEntry.
    by destruct (assertMap (Some src)). }
  rewrite forEach_app, bind_unfold. apply bind_ext.
  - destruct (assertMap (spec !! "source")) as [source|]; [|done].
    cbn [forEach]. by rewrite bind_unfold, bind_ret_r.
  - intros _. by destruct (assertSlice (spec !! "sources")).
Qed.

Lemma runCycle_sources items :
  runCycle items = forEach (cycleSources items) processCall.
Proof.
  unfold runCycle, cycleSources.
  induction items as [|object items IH]; [done|].
  cbn [forEach flat_map].
  by rewrite forEach_app, bind_unfold, processApplication_sources, IH.
Qed.

Lemma elem_of_cycleSources call items :
  call ∈ cycleSources items ↔
  ∃ object, object ∈ items ∧ call ∈ applicationSources object.
Proof.
  unfold cycleSources. rewrite list_elem_of_In, in_flat_map.
  by setoid_rewrite list_elem_of_In.
Qed.

Lemma applicationSources_name object appName source :
  (appName, source) ∈ applicationSources object → appName = GetName object.
Proof.
  unfold applicationSources.
  destruct (assertMap (object !! "spec")) as [spec|];
    [|intros H; by apply elem_of_nil in H].
  rewrite elem_of_app. intros [H|H].
  - destruct (assertMap (spec !! "source")); [|by apply elem_of_nil in H].
    by apply list_elem_of_singleton in H as [= -> _].
  - destruct (assertSlice (spec !! "sources")); [|by apply elem_of_nil in H].
    apply list_elem_of_omap in H as (src & _ & H).
    destruct (assertMap (Some src)); [|done]. by injection H as <- _.
Qed.

Lemma bind_samples {A B} (c : M A) (k : A → M B) s :
  s ∈ samples (bind c k).2 → s ∈ samples c.2 ∨ ∃ a, s ∈ samples (k a).2.
Proof.
  destruct c as [[a|] evs]; simpl; [|by left].
  destruct (k a) as [o evs'] eqn:Hk. simpl.
  rewrite samples_app, elem_of_app. intros [H|H]; [by left|].
  right. exists a. by rewrite Hk.
Qed.

Lemma forEach_samples {A} (l : list A) (body : A → M unit) s :
  s ∈ samples (forEach l body).2 → ∃ x, x ∈ l ∧ s ∈ samples (body x).2.
Proof.
  induction l as [|x l IH]; cbn [forEach].
  - intros H. by apply elem_of_nil in H.
  - rewrite bind_unfold. intros H. apply bind_samples in H as [H|[_ H]].
    + exists x. split; [by left | done].
    + destruct (IH H) as (y & Hy & Hs). exists y. split; [by right | done].
Qed.

(** Where a sample comes from: a source record of a listed application
    that passed [extract] and whose chart resolved. *)
Lemma runCycle_samples items s :
  s ∈ samples (runCycle items).2 →
  ∃ object source d latest st,
    object ∈ items ∧
    (GetName object, source) ∈ applicationSources object ∧
    extract source = Some d ∧
    (getLatestChartVersion (dRepositoryURL d) (dChartName d)).1 = Done (latest, None) ∧
    versionStatus (dDeclaredVersion d) latest = Done st ∧
    s = sampleFor (GetName object) d latest st.
Proof.
  rewrite runCycle_sources. intros Hs.
  apply forEach_samples in Hs as ([appName source] & Hcall & Hs).
  apply elem_of_cycleSources in Hcall as (object & Hobject & Hcall).
  pose proof (applicationSources_name _ _ _ Hcall) as ->.
  unfold processCall, processHelmSource in Hs. cbn [fst snd] in Hs.
  destruct (extract source) as [d|] eqn:Hex; [|by apply elem_of_nil in Hs].
  apply reportSource_samples in Hs as (latest & st & Hr & Hst & ->).
  by exists object, source, d, latest, st.
Qed.

(** C1.  For every sample of a cycle the gauge value is 1 or 0, and it is
    1 exactly when the declared version and the resolved latest version
    both parse and compare equal; when either fails to parse the value
    is 0. *)
Theorem runCycle_isCurrent items s :
  s ∈ samples (runCycle items).2 →
  (status s = 1 ∨ status s = 0)%Z ∧
  (isCurrent s = true ↔
     ∃ vc vl, NewVersion (declaredVersion s) = Some vc ∧
              NewVersion (latestVersion s) = Some vl ∧
              Compare vc vl = Eq) ∧
  (NewVersion (declaredVersion s) = None ∨ NewVersion (latestVersion s) = None →
     isCurrent s = false ∧ status s = 0%Z).
Proof.
  intros Hs.
  apply runCycle_samples in Hs as (object & source & d & latest & st & _ & _ & _ & _ & Hst & ->).
  apply versionStatus_Done in Hst as [Hrange Hiff].
  unfold isCurrent. cbn [status declaredVersion latestVersion sampleFor].
  rewrite Z.eqb_eq. split; [done|]. split; [done|].
  intros Hfail.
  assert (st ≠ 1%Z) as Hne.
  { intros H1. apply Hiff in H1 as (vc & vl & Hc & Hl & _).
    destruct Hfail; congruence. }
  split; [by apply Z.eqb_neq | lia].
Qed.

(** C9.  Every sample of a cycle belongs to a source record of a listed
    application that passed [extract], and carries the application name
    and the three fields of its descriptor.  An application whose spec is
    missing or not a map, or has neither [source] nor [sources], or none
    of whose sources passes [extract], completes without any event. *)
Theorem runCycle_samples_validated :
  (∀ items s, s ∈ samples (runCycle items).2 →
     ∃ object source d,
       object ∈ items ∧
       (GetName object, source) ∈ applicationSources object ∧
       extract source = Some d ∧
       applicationName s = GetName object ∧
       chartName s = dChartName d ∧
       repositoryURL s = dRepositoryURL d ∧
       declaredVersion s = dDeclaredVersion d) ∧
  (∀ object,
     assertMap (object !! "spec") = None ∨
     (∃ spec, object !! "spec" = Some (VMap spec) ∧
              spec !! "source" = None ∧ spec !! "sources" = None) ∨
     (∀ appName source,
        (appName, source) ∈ applicationSources object → extract source = None) →
     processApplication object = (Done tt, [])).
Proof.
  split.
  - intros items s Hs.
    apply runCycle_samples in Hs
      as (object & source & d & latest & st & Hobject & Hcall & Hex & _ & _ & ->).
    by exists object, source, d.
  - intros object H. rewrite processApplication_sources.
    apply forEach_silent. intros [appName source] Hcall.
    unfold processCall, processHelmSource. cbn [fst snd].
    destruct H as [H|[(spec & Hspec & Hsource & Hsources)|H]].
    + unfold applicationSources in Hcall. rewrite H in Hcall.
      by apply elem_of_nil in Hcall.
    + unfold applicationSources in Hcall.
      rewrite Hspec in Hcall. cbn [assertMap] in Hcall.
      rewrite Hsource, Hsources in Hcall. by apply elem_of_nil in Hcall.
    + by rewrite (H _ _ Hcall).
Qed.

End Cycle.

(** ** The properties at work on the small world *)

(** The verdicts listed in the design document. *)
Example compare_verdicts :
  compare (L := mastermindsLib true) "1.2.3" "1.2.3" = CmpEqual ∧
  compare (L := mastermindsLib true) "1.2.3" "1.3.0" = CmpLess ∧
  compare (L := mastermindsLib true) "2.0.0" "1.9.9" = CmpGreater ∧
  compare (L := mastermindsLib true) "not-a-version" "1.0.0" = Incomparable ∧
  compare (L := mastermindsLib true) "1.0.0-rc.1" "1.0.0" = CmpLess.
Proof. repeat split; reflexivity. Qed.

(** One cycle over the three applications: the unreachable repository of
    [cacheApp] costs one fetch and nothing else. *)
Example runCycle_small_world :
  samples (runCycle (L := mastermindsLib true) (N := demoNetwork) [cacheApp; webApp; shopApp]).2 =
  [sampleFor "web" {| dChartName := "nginx"; dRepositoryURL := "https://x/";
                      dDeclaredVersion := "1.2.0" |} "1.2.0" 1;
   sampleFor "shop" {| dChartName := "nginx"; dRepositoryURL := "https://x/";
                       dDeclaredVersion := "1.0.0" |} "1.2.0" 0;
   sampleFor "shop" {| dChartName := "redis"; dRepositoryURL := "https://x/";
                       dDeclaredVersion := "1.0.0" |} "1.0.0" 1;
   sampleFor "shop" {| dChartName := "nginx"; dRepositoryURL := "https://x/";
                       dDeclaredVersion := "bogus" |} "1.2.0" 0].
Proof. vm_compute. reflexivity. Qed.

(** A declared version that does not parse, against a latest version that
    does: gauge 0 with the nil test in [Equal], a panic without it. *)
Example malformed_declared_version :
  processHelmSource (L := mastermindsLib true) (N := demoNetwork) "web"
      (helmSource "redis" "https://x" "bogus")
    = (Done tt, [EvFetch "https://x//index.yaml";
                 EvGauge (sampleFor "web" {| dChartName := "redis";
                            dRepositoryURL := "https://x/";
                            dDeclaredVersion := "bogus" |} "1.0.0" 0)]) ∧
  processHelmSource (L := mastermindsLib false) (N := demoNetwork) "web"
      (helmSource "redis" "https://x" "bogus")
    = (Panic, [EvFetch "https://x//index.yaml"]).
Proof. split; vm_compute; reflexivity. Qed.

(** An index whose entries are all malformed: the first one is the
    latest. *)
Example all_malformed_entries :
  getLatestChartVersion (L := mastermindsLib true) (N := demoNetwork) "https://x/" "nightly"
    = (Done ("latest", None), [EvFetch "https://x//index.yaml"]).
Proof. vm_compute. reflexivity. Qed.

Lemma runCycle_isCurrent_witness :
  let s := sampleFor "web" {| dChartName := "nginx"; dRepositoryURL := "https://x/";
                              dDeclaredVersion := "1.2.0" |} "1.2.0" 1 in
  s ∈ samples (runCycle (L := mastermindsLib true) (N := demoNetwork) [cacheApp; webApp]).2 ∧
  isCurrent s = true.
Proof.
  intros s.
  assert (s ∈ samples (runCycle (L := mastermindsLib true) (N := demoNetwork) [cacheApp; webApp]).2)
    as Hs by (vm_compute; left).
  split; [exact Hs|].
  apply (runCycle_isCurrent (L := mastermindsLib true) (N := demoNetwork) _ s Hs).
  eexists _, _. repeat split; reflexivity.
Defined.

(** The index of the design document's example. *)
Example latest_of_three_entries :
  demoIndex !! "nginx" = Some ["1.0.0"; "1.2.0"; "1.1.0"] ∧
  getLatestChartVersion (L := mastermindsLib true) (N := demoNetwork) "https://x/" "nginx"
    = (Done ("1.2.0", None), [EvFetch "https://x//index.yaml"]).
Proof. split; vm_compute; reflexivity. Qed.

Lemma getLatestChartVersion_selection_witness :
  (demoIndex !! "nginx" = Some ["1.0.0"; "1.2.0"; "1.1.0"] ∧
   (getLatestChartVersion (L := mastermindsLib true) (N := demoNetwork)
      "https://x/" "nginx").1 = Done ("1.2.0", None)) ∧
  (demoIndex !! "legacy" = Some ["bogus"; "1.0.0"] ∧
   (getLatestChartVersion (L := mastermindsLib true) (N := demoNetwork)
      "https://x/" "legacy").1 = Panic).
Proof.
  assert (demoIndex !! "nginx" = Some ["1.0.0"; "1.2.0"; "1.1.0"]) as Hnginx
    by (vm_compute; reflexivity).
  assert (demoIndex !! "legacy" = Some ["bogus"; "1.0.0"]) as Hlegacy
    by (vm_compute; reflexivity).
  split; (split; [assumption|]).
  - refine (proj1 (proj1 (getLatestChartVersion_selection (L := mastermindsLib true)
                     (N := demoNetwork) (O := mastermindsLib_order true)
                     "https://x/" "nginx" (Some demoIndex) demoIndex
                     "1.0.0" ["1.2.0"; "1.1.0"] _ _ Hnginx) _)).
    + reflexivity.
    + reflexivity.
    + left. vm_compute. eauto.
  - refine (proj2 (getLatestChartVersion_selection (L := mastermindsLib true)
                     (N := demoNetwork) (O := mastermindsLib_order true)
                     "https://x/" "legacy" (Some demoIndex) demoIndex
                     "bogus" ["1.0.0"] _ _ Hlegacy) _ _).
    + reflexivity.
    + reflexivity.
    + reflexivity.
    + apply Exists_cons_hd. vm_compute. eauto.
Defined.

Lemma getLatestChartVersion_nil_seed_panics_witness :
  demoIndex !! "legacy" = Some ["bogus"; "1.0.0"] ∧
  (getLatestChartVersion (L := mastermindsLib false) (N := demoNetwork) "https://x/" "legacy").1
    = Panic.
Proof.
  assert (demoIndex !! "legacy" = Some ["bogus"; "1.0.0"]) as Hlook
    by (vm_compute; reflexivity).
  split; [exact Hlook|].
  apply (getLatestChartVersion_nil_seed_panics (L := mastermindsLib false) (N := demoNetwork)
           "https://x/" "legacy" (Some demoIndex) demoIndex "bogus" [] "1.0.0" []).
  - reflexivity.
  - reflexivity.
  - exact Hlook.
  - reflexivity.
  - constructor.
  - vm_compute. eauto.
Defined.

Lemma getLatestChartVersion_fetch_url_witness :
  fetches (getLatestChartVersion (L := mastermindsLib true) (N := demoNetwork) "https://x/" "nginx").2
    = ["https://x//index.yaml"] ∧
  "https://x//index.yaml" ≠ "https://x/index.yaml".
Proof.
  destruct (getLatestChartVersion_fetch_url (L := mastermindsLib true) (N := demoNetwork)
              "https://x/" "nginx" eq_refl) as (Hfetch & _ & Hne).
  split; [exact Hfetch | exact Hne].
Defined.

Lemma extract_normalizes_witness :
  let d := {| dChartName := "nginx"; dRepositoryURL := "https://x/";
              dDeclaredVersion := "1.0.0" |} in
  extract (helmSource "nginx" "https://x" "1.0.0") = Some d ∧
  ∃ u, helmSource "nginx" "https://x" "1.0.0" !! "repoURL" = Some (VString u) ∧
       (HasSuffix u "/" = false → dRepositoryURL d = u ++ "/") ∧
       (HasSuffix u "/" = true → dRepositoryURL d = u) ∧
       HasSuffix (dRepositoryURL d) "/" = true.
Proof.
  intros d.
  assert (extract (helmSource "nginx" "https://x" "1.0.0") = Some d) as Hex
    by (vm_compute; reflexivity).
  split; [exact Hex | exact (extract_normalizes _ _ Hex)].
Defined.

(** The two records of the design document: a URL that already ends with
    the separator is kept, and a record without [chart] is no Helm
    source. *)
Example extract_design_examples :
  extract (helmSource "nginx" "https://x/" "1.0.0")
    = Some {| dChartName := "nginx"; dRepositoryURL := "https://x/";
              dDeclaredVersion := "1.0.0" |} ∧
  extract {[ "repoURL" := VString "https://x" ]} = None.
Proof. split; vm_compute; reflexivity. Qed.


(** * Further properties of the code *)

(** ** The scan, on every index *)

Section ScanFurther.
Context {L : SemverLib}.

(** X1.  Entries after the first that do not parse never influence the
    scan: with or without them it returns the same version, or panics
    alike. *)
Theorem scanVersions_ignores_malformed first rest :
  scanVersions first rest
  = scanVersions first (filter (λ v, is_Some (NewVersion v)) rest).
Proof.
  revert first. induction rest as [|v rest IH]; intros first; [done|].
  destruct (NewVersion v) as [next|] eqn:Hv.
  - rewrite filter_cons_True by (by rewrite Hv).
    cbn [scanVersions]. rewrite Hv.
    destruct (GreaterThan (Some next) (NewVersion first)) as [[]|]; auto.
  - rewrite filter_cons_False by (rewrite Hv; by intros [? ?]).
    rewrite scanVersions_skip by done. apply IH.
Qed.

Lemma scanVersions_panic_inv first rest :
  scanVersions first rest = Panic →
  NewVersion first = None ∧ Exists (λ v, is_Some (NewVersion v)) rest.
Proof.
  revert first. induction rest as [|v rest IH]; intros first; [done|].
  cbn [scanVersions].
  destruct (NewVersion v) as [next|] eqn:Hv.
  - destruct (NewVersion first) as [current|] eqn:Hfirst; cbn [GreaterThan].
    + destruct (Compare next current); intros H; apply IH in H as [H _];
        congruence.
    + intros _. split; [done|]. apply Exists_cons_hd. by rewrite Hv.
  - intros H. apply IH in H as [Hfirst Hex]. split; [done|].
    by apply Exists_cons_tl.
Qed.

Lemma scanVersions_panic_intro first rest :
  NewVersion first = None → Exists (λ v, is_Some (NewVersion v)) rest →
  scanVersions first rest = Panic.
Proof.
  intros Hfirst Hex.
  apply first_parsable in Hex as (skipped & v & rest' & -> & Hskipped & Hv).
  by apply scanVersions_nil_seed.
Qed.

(** X2.  The scan panics exactly when the first entry does not parse and
    some later entry does. *)
Theorem scanVersions_panic_iff first rest :
  scanVersions first rest = Panic ↔
  NewVersion first = None ∧ Exists (λ v, is_Some (NewVersion v)) rest.
Proof.
  split; [apply scanVersions_panic_inv|].
  intros [Hfirst Hex]. by apply scanVersions_panic_intro.
Qed.

Lemma scanVersions_Done_inv first rest latest :
  scanVersions first rest = Done latest →
  latest ∈ first :: rest ∧
  (is_Some (NewVersion latest) ↔ is_Some (NewVersion first)).
Proof.
  revert first. induction rest as [|v rest IH]; intros first.
  - intros [= <-]. split; [by left | done].
  - cbn [scanVersions].
    destruct (NewVersion v) as [next|] eqn:Hv.
    + destruct (NewVersion first) as [current|] eqn:Hfirst; cbn [GreaterThan];
        [|done].
      destruct (Compare next current); intros H; apply IH in H as [Hin Hiff].
      * split; [|by rewrite Hiff, Hfirst].
        apply elem_of_cons in Hin as [->|Hin]; [by left | by do 2 right].
      * split; [|by rewrite Hiff, Hfirst].
        apply elem_of_cons in Hin as [->|Hin]; [by left | by do 2 right].
      * split; [by right|]. rewrite Hiff, Hv. split; eauto.
    + intros H. apply IH in H as [Hin Hiff]. split; [|done].
      apply elem_of_cons in Hin as [->|Hin]; [by left | by do 2 right].
Qed.

(** X3.  A version returned by the scan is one of the listed entries, and
    it parses exactly when the first entry parses. *)
Theorem scanVersions_returns_entry first rest latest :
  scanVersions first rest = Done latest →
  latest ∈ first :: rest ∧
  (is_Some (NewVersion latest) ↔ is_Some (NewVersion first)).
Proof. apply scanVersions_Done_inv. Qed.

Lemma Compare_le_lt_trans {O : SemverOrder L} (a b c : Version) :
  Compare a b ≠ Gt → Compare b c = Lt → Compare a c = Lt.
Proof.
  intros Hab Hbc. destruct (Compare a b) eqn:Eab; [| |done].
  - by rewrite (Compare_eq_l a b c Eab).
  - by apply (Compare_lt_trans a b c).
Qed.

Lemma Compare_lt_le_trans {O : SemverOrder L} (a b c : Version) :
  Compare a b = Lt → Compare b c ≠ Gt → Compare a c = Lt.
Proof.
  intros Hab Hbc. destruct (Compare b c) eqn:Ebc; [| |done].
  - by rewrite <-(Compare_eq_r a b c Ebc).
  - by apply (Compare_lt_trans a b c).
Qed.

(** Where the running maximum sits in the list: strictly above every
    parsable entry before it, not below any parsable entry after it. *)
Lemma runningMaximum_position {O : SemverOrder L} first rest seed :
  NewVersion first = Some seed →
  ∃ before after top,
    first :: rest = (before ++ runningMaximum first rest :: after)%list ∧
    NewVersion (runningMaximum first rest) = Some top ∧
    (∀ e v, e ∈ before → NewVersion e = Some v → Compare v top = Lt) ∧
    (∀ e v, e ∈ after → NewVersion e = Some v → Compare v top ≠ Gt).
Proof.
  revert first seed. induction rest as [|c rest IH]; intros first seed Hseed.
  - exists [], [], seed. split; [done|]. split; [done|].
    split; intros e v He; by apply elem_of_nil in He.
  - assert (runningMaximum first (c :: rest) =
            runningMaximum
              (if parses c &&
                  match compare c first with CmpGreater => true | _ => false end
               then c else first) rest) as Hstep by done.
    rewrite Hstep. unfold compare. rewrite Hseed.
    destruct (NewVersion c) as [vc|] eqn:Hc.
    + assert (parses c = true) as -> by (apply parses_true; eauto).
      cbn [andb]. destruct (Compare vc seed) eqn:Hcmp.
      1,2: destruct (IH first seed Hseed) as (before & after & top & Hsplit & Htop & Hb & Ha);
        destruct before as [|b0 before]; cbn [app] in Hsplit;
        injection Hsplit as Hhead Htail.
      * exists [], (c :: after), top. rewrite <-Hhead, Htail. split; [done|].
        rewrite <-Hhead in Htop. split; [done|]. split.
        -- intros e v He. by apply elem_of_nil in He.
        -- intros e v He Hv. apply elem_of_cons in He as [->|He]; [|eauto].
           assert (v = vc) as -> by congruence.
           assert (top = seed) as -> by congruence. by rewrite Hcmp.
      * exists (first :: c :: before), after, top. subst b0.
        split; [cbn [app]; by rewrite <-Htail|]. split; [done|]. split; [|done].
        intros e v He Hv. rewrite !elem_of_cons in He.
        destruct He as [->|[->|He]].
        -- apply (Hb first); [by left | done].
        -- assert (v = vc) as -> by congruence.
           apply (Compare_le_lt_trans vc seed top); [by rewrite Hcmp|].
           apply (Hb first); [by left | done].
        -- apply (Hb e); [by right | done].
      * exists [], (c :: after), top. rewrite <-Hhead, Htail. split; [done|].
        rewrite <-Hhead in Htop. split; [done|]. split.
        -- intros e v He. by apply elem_of_nil in He.
        -- intros e v He Hv. apply elem_of_cons in He as [->|He]; [|eauto].
           assert (v = vc) as -> by congruence.
           assert (top = seed) as -> by congruence. by rewrite Hcmp.
      * exists (first :: c :: before), after, top. subst b0.
        split; [cbn [app]; by rewrite <-Htail|]. split; [done|]. split; [|done].
        intros e v He Hv. rewrite !elem_of_cons in He.
        destruct He as [->|[->|He]].
        -- apply (Hb first); [by left | done].
        -- assert (v = vc) as -> by congruence.
           apply (Compare_le_lt_trans vc seed top); [by rewrite Hcmp|].
           apply (Hb first); [by left | done].
        -- apply (Hb e); [by right | done].
      * destruct (IH c vc Hc) as (before & after & top & Hsplit & Htop & Hb & Ha).
        exists (first :: before), after, top.
        split; [by rewrite Hsplit|]. split; [done|]. split; [|done].
        intros e v He Hv. apply elem_of_cons in He as [->|He]; [|eauto].
        assert (v = seed) as -> by congruence.
        pose proof (Compare_Gt_Lt _ _ Hcmp) as Hlt.
        destruct before as [|b0 before]; cbn [app] in Hsplit;
          injection Hsplit as Hhead Htail.
        -- rewrite <-Hhead in Htop. by assert (top = vc) as -> by congruence.
        -- subst b0. apply (Compare_lt_trans seed vc top); [done|].
           apply (Hb c); [by left | done].
    + assert (parses c = false) as -> by (by apply parses_false).
      cbn [andb].
      destruct (IH first seed Hseed) as (before & after & top & Hsplit & Htop & Hb & Ha).
      destruct before as [|b0 before]; cbn [app] in Hsplit;
        injection Hsplit as Hhead Htail.
      * exists [], (c :: after), top. rewrite <-Hhead, Htail. split; [done|].
        rewrite <-Hhead in Htop. split; [done|]. split.
        -- intros e v He. by apply elem_of_nil in He.
        -- intros e v He Hv. apply elem_of_cons in He as [->|He]; [congruence|eauto].
      * exists (first :: c :: before), after, top. subst b0.
        split; [cbn [app]; by rewrite <-Htail|]. split; [done|]. split; [|done].
        intros e v He Hv. rewrite !elem_of_cons in He.
        destruct He as [->|[->|He]]; [|congruence|].
        -- apply (Hb first); [by left | done].
        -- apply (Hb e); [by right | done].
Qed.

(** X4.  When the first entry parses, the scan returns the first entry of
    highest precedence: every parsable entry listed before it is strictly
    below it, and no parsable entry listed after it is above it.  Among
    entries of equal precedence the earliest wins. *)
Theorem scanVersions_first_maximum {O : SemverOrder L} first rest :
  is_Some (NewVersion first) →
  ∃ latest before after top,
    scanVersions first rest = Done latest ∧
    first :: rest = (before ++ latest :: after)%list ∧
    NewVersion latest = Some top ∧
    (∀ e v, e ∈ before → NewVersion e = Some v → Compare v top = Lt) ∧
    (∀ e v, e ∈ after → NewVersion e = Some v → Compare v top ≠ Gt).
Proof.
  intros Hfirst.
  destruct (scanVersions_runningMaximum first rest Hfirst) as [Hscan _].
  destruct Hfirst as [seed Hseed].
  destruct (runningMaximum_position first rest seed Hseed)
    as (before & after & top & Hsplit & Htop & Hb & Ha).
  by exists (runningMaximum first rest), before, after, top.
Qed.

End ScanFurther.

(** ** The checks on a source record *)

(** X5.  [extract] reads nothing but the keys [chart], [repoURL] and
    [targetRevision]: two records that agree on these three keys are
    treated alike, whatever else they hold. *)
Theorem extract_reads_three_keys (source source' : gmap string value) :
  (∀ key, key ∈ ["chart"; "repoURL"; "targetRevision"] →
          source !! key = source' !! key) →
  extract source = extract source'.
Proof.
  intros H. unfold extract, extractFields.
  rewrite (H "chart") by (by left).
  rewrite (H "repoURL") by (right; by left).
  by rewrite (H "targetRevision") by (do 2 right; by left).
Qed.

(** X6.  Normalizing a repository URL twice is the same as normalizing it
    once, and the normalized URL is the given one or one character
    longer. *)
Theorem normalizeRepoURL_idempotent u :
  normalizeRepoURL (normalizeRepoURL u) = normalizeRepoURL u ∧
  (String.length (normalizeRepoURL u) = String.length u ∨
   String.length (normalizeRepoURL u) = S (String.length u)).
Proof.
  destruct (normalizeRepoURL_cases u) as (Hadd & Hkeep & Hsep).
  split.
  - by destruct (normalizeRepoURL_cases (normalizeRepoURL u)) as (_ & -> & _).
  - destruct (HasSuffix u "/").
    + left. by rewrite Hkeep.
    + right. rewrite Hadd by done. rewrite append_length. simpl. lia.
Qed.

(** ** The comparison of declared and latest version *)

Section StatusFurther.
Context {L : SemverLib}.

Lemma versionStatus_Panic chartVersion latest :
  versionStatus chartVersion latest = Panic ↔
  EqualChecksNil = false ∧ NewVersion chartVersion = None ∧
  is_Some (NewVersion latest).
Proof.
  unfold versionStatus, Equal.
  destruct (NewVersion latest) as [vl|].
  2:{ split; [done | by intros (_ & _ & [? ?])]. }
  destruct (NewVersion chartVersion) as [vc|].
  - split; [by destruct (Compare vc vl) | by intros (_ & ? & _)].
  - destruct EqualChecksNil.
    + split; [done | by intros (? & _)].
    + split; [eauto | done].
Qed.

(** X7.  Lines 140-151 panic exactly when the declared version does not
    parse, the latest version parses, and [Equal] does not test for nil;
    otherwise they yield the gauge value 0 or 1. *)
Theorem versionStatus_panic_iff chartVersion latest :
  (versionStatus chartVersion latest = Panic ↔
     EqualChecksNil = false ∧ NewVersion chartVersion = None ∧
     is_Some (NewVersion latest)) ∧
  (versionStatus chartVersion latest ≠ Panic →
     versionStatus chartVersion latest = Done 0%Z ∨
     versionStatus chartVersion latest = Done 1%Z).
Proof.
  split; [apply versionStatus_Panic|].
  destruct (versionStatus chartVersion latest) as [st|] eqn:Hst; [|done].
  intros _. by destruct (versionStatus_Done _ _ _ Hst) as [[-> | ->] _]; [right|left].
Qed.

(** When the declared and the latest version are the same string, the
    gauge is 1 exactly when that string parses. *)
Lemma versionStatus_same_string {O : SemverOrder L} version st :
  versionStatus version version = Done st →
  (st = 1%Z ↔ is_Some (NewVersion version)).
Proof.
  intros Hst. apply versionStatus_Done in Hst as [_ ->]. split.
  - intros (vc & vl & Hc & _). eauto.
  - intros [v Hv]. exists v, v. by rewrite Compare_refl.
Qed.

End StatusFurther.

(** ** The cycle as a whole *)

(** The events of a loop are those of its iterations, one after the other,
    up to the first one that panics. *)
Lemma forEach_events_prefix {A} (l : list A) (body : A → M unit) :
  (forEach l body).2 `prefix_of` concat ((λ x, (body x).2) <$> l) ∧
  ((forEach l body).1 = Done tt →
   (forEach l body).2 = concat ((λ x, (body x).2) <$> l) ∧
   ∀ x, x ∈ l → (body x).1 = Done tt).
Proof.
  induction l as [|x l [IHp IHd]]; cbn [forEach].
  - split; [done|]. intros _. split; [done|]. intros x Hx. by apply elem_of_nil in Hx.
  - rewrite bind_unfold. cbn [fmap list_fmap concat].
    destruct (body x) as [[[]|] evs] eqn:Hx; cbn [bind fst snd].
    + destruct (forEach l body) as [o evs'] eqn:Hl. cbn [fst snd] in *.
      split; [by apply prefix_app|].
      intros ->. destruct (IHd eq_refl) as [-> Hall]. split; [done|].
      intros y Hy. apply elem_of_cons in Hy as [->|Hy]; [by rewrite Hx | eauto].
    + split; [by apply prefix_app_r | done].
Qed.

Section CycleFurther.
Context {L : SemverLib} {N : Network}.

(** One call of [processHelmSource] fetches once when the record passes
    [extract], panic or not, and never otherwise. *)
Lemma processCall_fetches call :
  fetches (processCall call).2 =
  match extract call.2 with
  | Some d => [dRepositoryURL d ++ "/index.yaml"]
  | None => []
  end.
Proof.
  unfold processCall, processHelmSource.
  destruct (extract call.2) as [d|]; [|done].
  rewrite reportSource_unfold. cbn zeta.
  destruct (getLatestChartVersion _ _).1 as [[latest [e|]]|]; try done.
  by destruct (versionStatus _ _).
Qed.

Lemma fetches_concat (l : list (list event)) :
  fetches (concat l) = concat (fetches <$> l).
Proof.
  induction l as [|evs l IH]; [done|].
  cbn [concat fmap list_fmap]. by rewrite fetches_app, IH.
Qed.

Lemma fetches_prefix evs1 evs2 :
  evs1 `prefix_of` evs2 → fetches evs1 `prefix_of` fetches evs2.
Proof. intros [k ->]. rewrite fetches_app. by apply prefix_app_r. Qed.

Lemma cycle_urls (calls : list (string * gmap string value)) :
  concat (fetches <$> ((λ call, (processCall call).2) <$> calls))
  = (λ d, dRepositoryURL d ++ "/index.yaml") <$> omap (λ call, extract call.2) calls.
Proof.
  induction calls as [|call calls IH]; [done|].
  cbn [fmap list_fmap concat omap list_omap].
  rewrite IH, processCall_fetches. by destruct (extract call.2).
Qed.

(** X9.  A cycle fetches one index per source record that passes
    [extract], in processing order and without reuse: the addresses
    requested are a prefix of the list of these records' addresses, and the
    whole list when the cycle completes. *)
Theorem runCycle_fetches items :
  let urls := (λ d, dRepositoryURL d ++ "/index.yaml")
                <$> omap (λ call, extract call.2) (cycleSources items) in
  fetches (runCycle items).2 `prefix_of` urls ∧
  ((runCycle items).1 = Done tt → fetches (runCycle items).2 = urls).
Proof.
  intros urls. unfold urls. rewrite runCycle_sources, <-cycle_urls, <-fetches_concat.
  destruct (forEach_events_prefix (cycleSources items) processCall) as [Hp Hd].
  split; [by apply fetches_prefix|].
  intros H. by destruct (Hd H) as [-> _].
Qed.

Lemma getLatestChartVersion_Done_inv repoURL chartName latest :
  (getLatestChartVersion repoURL chartName).1 = Done (latest, None) →
  ∃ body index first rest,
    httpGet (repoURL ++ "/index.yaml") = Some body ∧
    yamlDecode body = Some index ∧
    index !! chartName = Some (first :: rest) ∧
    scanVersions first rest = Done latest.
Proof.
  rewrite getLatestChartVersion_unfold. cbn [fst].
  destruct (httpGet _) as [body|] eqn:Hget; [|done].
  destruct (yamlDecode body) as [index|] eqn:Hdec; [|done].
  destruct (index !! chartName) as [[|first rest]|] eqn:Hlook; [done| |done].
  destruct (scanVersions first rest) as [l|] eqn:Hscan; [|done].
  intros [= ->]. by exists body, index, first, rest.
Qed.

Lemma getLatestChartVersion_Panic_inv repoURL chartName :
  (getLatestChartVersion repoURL chartName).1 = Panic ↔
  ∃ body index first rest,
    httpGet (repoURL ++ "/index.yaml") = Some body ∧
    yamlDecode body = Some index ∧
    index !! chartName = Some (first :: rest) ∧
    scanVersions first rest = Panic.
Proof.
  rewrite getLatestChartVersion_unfold. cbn [fst].
  destruct (httpGet _) as [body|] eqn:Hget;
    [|split; [done | by intros (? & ? & ? & ? & ? & _)]].
  destruct (yamlDecode body) as [index|] eqn:Hdec;
    [|split; [done | intros (? & ? & ? & ? & [= <-] & ? & _); congruence]].
  destruct (index !! chartName) as [[|first rest]|] eqn:Hlook.
  - split; [done | intros (? & i & ? & ? & [= <-] & Hi & Hl & _); congruence].
  - split.
    + destruct (scanVersions first rest) eqn:Hscan; [done|].
      intros _. by exists body, index, first, rest.
    + intros (? & i & f & r & [= <-] & Hi & Hl & Hscan).
      assert (i = index) as -> by congruence.
      assert (f = first ∧ r = rest) as [-> ->] by (split; congruence).
      by rewrite Hscan.
  - split; [done | intros (? & i & ? & ? & [= <-] & Hi & Hl & _); congruence].
Qed.

(** X10.  Every sample of a cycle has a non-empty chart and declared
    version and a repository URL that ends with the separator, and its
    latest version is one of the version records that the index fetched for
    that repository lists for that chart. *)
Theorem runCycle_sample_labels items s :
  s ∈ samples (runCycle items).2 →
  chartName s ≠ "" ∧ declaredVersion s ≠ "" ∧
  HasSuffix (repositoryURL s) "/" = true ∧
  ∃ body index versions,
    httpGet (repositoryURL s ++ "/index.yaml") = Some body ∧
    yamlDecode body = Some index ∧
    index !! chartName s = Some versions ∧
    latestVersion s ∈ versions.
Proof.
  intros Hs.
  apply runCycle_samples in Hs
    as (object & source & d & latest & st & _ & _ & Hex & Hr & _ & ->).
  apply extract_Some in Hex as (c & u & v & _ & Hc & _ & _ & _ & Hv & ->).
  cbn [sampleFor chartName declaredVersion repositoryURL latestVersion
       dChartName dRepositoryURL dDeclaredVersion] in *.
  split; [done|]. split; [done|].
  split; [by destruct (normalizeRepoURL_cases u) as (_ & _ & ?)|].
  apply getLatestChartVersion_Done_inv in Hr
    as (body & index & first & rest & Hget & Hdec & Hlook & Hscan).
  exists body, index, (first :: rest). split; [done|]. split; [done|].
  split; [done|]. by apply scanVersions_Done_inv in Hscan as [? _].
Qed.

Lemma callSource_cons call calls :
  omap callSource (call :: calls)
  = (option_list (callSource call) ++ omap callSource calls)%list.
Proof. cbn [omap list_omap]. by destruct (callSource call). Qed.

Lemma processCall_source call :
  sampleSource <$> samples (processCall call).2
  `sublist_of` option_list (callSource call).
Proof.
  unfold processCall, processHelmSource, callSource.
  destruct (extract call.2) as [d|]; [|done].
  rewrite reportSource_unfold. cbn zeta.
  destruct (getLatestChartVersion _ _).1 as [[latest [e|]]|];
    try apply sublist_nil_l.
  destruct (versionStatus _ _); [|apply sublist_nil_l]. done.
Qed.

(** X11.  The samples of a cycle follow the order in which the sources are
    processed, with at most one sample per source: their sources form a
    subsequence of the sources that pass [extract], listed application by
    application, [source] before the entries of [sources]. *)
Theorem runCycle_samples_in_order items :
  sampleSource <$> samples (runCycle items).2
  `sublist_of` omap callSource (cycleSources items).
Proof.
  rewrite runCycle_sources.
  induction (cycleSources items) as [|call calls IH]; [done|].
  rewrite callSource_cons. cbn [forEach]. rewrite bind_unfold.
  pose proof (processCall_source call) as Hcall.
  destruct (processCall call) as [[[]|] evs]; cbn [bind fst snd] in *.
  - destruct (forEach calls processCall) as [o evs']. cbn [snd] in *.
    rewrite samples_app, fmap_app. by apply sublist_app.
  - by apply sublist_inserts_r.
Qed.

(** X12.  A call of [processHelmSource] panics exactly when the record
    passes [extract], the chart has version records in the fetched index,
    and either the first record does not parse while a later one does, or
    the first record parses, the declared version does not, and [Equal]
    does not test for nil.  In every other case the call returns. *)
Theorem processHelmSource_panic_iff appName source :
  (processHelmSource appName source).1 = Panic ↔
  ∃ d body index first rest,
    extract source = Some d ∧
    httpGet (dRepositoryURL d ++ "/index.yaml") = Some body ∧
    yamlDecode body = Some index ∧
    index !! dChartName d = Some (first :: rest) ∧
    ((NewVersion first = None ∧ Exists (λ v, is_Some (NewVersion v)) rest) ∨
     (is_Some (NewVersion first) ∧ NewVersion (dDeclaredVersion d) = None ∧
      EqualChecksNil = false)).
Proof.
  unfold processHelmSource.
  destruct (extract source) as [d|];
    [|split; [done | by intros (? & ? & ? & ? & ? & ? & _)]].
  rewrite reportSource_unfold. cbn zeta.
  destruct (getLatestChartVersion _ _).1 as [[latest [e|]]|] eqn:Hr.
  - split; [done|].
    intros (d' & body & index & first & rest & [= <-] & Hget & Hdec & Hlook & Hcase).
    pose proof (getLatestChartVersion_found _ _ _ _ _ _ Hget Hdec Hlook) as Hf.
    rewrite Hr in Hf. by destruct (scanVersions first rest).
  - apply getLatestChartVersion_Done_inv in Hr
      as (body & index & first & rest & Hget & Hdec & Hlook & Hscan).
    pose proof (scanVersions_Done_inv _ _ _ Hscan) as [_ Hparse].
    destruct (versionStatus (dDeclaredVersion d) latest) as [st|] eqn:Hst.
    + split; [done|].
      intros (d' & b & i & f & r & [= <-] & Hget' & Hdec' & Hlook' & Hcase).
      assert (b = body) as -> by congruence.
      assert (i = index) as -> by congruence.
      assert (f = first ∧ r = rest) as [-> ->] by (split; congruence).
      destruct Hcase as [Hnil | (Hfirst & Hdecl & Hnocheck)].
      * destruct Hnil as [Hnil1 Hnil2].
        pose proof (scanVersions_panic_intro _ _ Hnil1 Hnil2). congruence.
      * assert (versionStatus (dDeclaredVersion d) latest = Panic) as Hp.
        { apply versionStatus_Panic. by rewrite Hparse. }
        congruence.
    + split; [intros _|done].
      apply versionStatus_Panic in Hst as (Hnocheck & Hdecl & Hlatest).
      exists d, body, index, first, rest. repeat (split; [done|]).
      right. by rewrite <-Hparse.
  - split; [intros _|done].
    apply getLatestChartVersion_Panic_inv in Hr
      as (body & index & first & rest & Hget & Hdec & Hlook & Hscan).
    exists d, body, index, first, rest. repeat (split; [done|]).
    left. by apply scanVersions_panic_inv.
Qed.

Lemma forEach_Panic_iff {A} (l : list A) (body : A → M unit) :
  (forEach l body).1 = Panic ↔ ∃ x, x ∈ l ∧ (body x).1 = Panic.
Proof.
  induction l as [|x l IH]; cbn [forEach].
  - split; [done | intros (x & Hx & _); by apply elem_of_nil in Hx].
  - rewrite bind_unfold.
    destruct (body x) as [[[]|] evs] eqn:Hx; cbn [bind].
    + destruct (forEach l body) as [o evs'] eqn:Hl. cbn [fst] in *.
      rewrite IH. split.
      * intros (y & Hy & Hp). exists y. split; [by right | done].
      * intros (y & Hy & Hp). apply elem_of_cons in Hy as [->|Hy]; [|eauto].
        rewrite Hx in Hp. done.
    + split; [intros _|done]. exists x. split; [by left | by rewrite Hx].
Qed.

(** X13.  A cycle panics exactly when one of its calls of
    [processHelmSource] does; it completes exactly when all of them
    return. *)
Theorem runCycle_panic_iff items :
  ((runCycle items).1 = Panic ↔
     ∃ call, call ∈ cycleSources items ∧
             (processHelmSource call.1 call.2).1 = Panic) ∧
  ((runCycle items).1 = Done tt ↔
     ∀ call, call ∈ cycleSources items →
             (processHelmSource call.1 call.2).1 = Done tt).
Proof.
  rewrite runCycle_sources.
  pose proof (forEach_Panic_iff (cycleSources items) processCall) as Hiff.
  split; [exact Hiff|]. split.
  - intros Hdone call Hcall.
    destruct (processHelmSource call.1 call.2).1 as [[]|] eqn:Hp; [done|].
    assert ((forEach (cycleSources items) processCall).1 = Panic) as Hpanic
      by (apply Hiff; eauto).
    congruence.
  - intros Hall.
    destruct (forEach (cycleSources items) processCall).1 as [[]|] eqn:Hp; [done|].
    apply forEach_Panic_iff in Hp as (call & Hcall & Hpanic).
    unfold processCall in Hpanic. rewrite (Hall call Hcall) in Hpanic. done.
Qed.

(** X14.  When a sample's declared version and latest version are the same
    string, the gauge is 1 exactly when that string parses: an application
    pinned to a tag that is no semantic version is reported outdated even
    when the index lists the very same tag. *)
Theorem runCycle_same_version_string {O : SemverOrder L} items s :
  s ∈ samples (runCycle items).2 →
  declaredVersion s = latestVersion s →
  (isCurrent s = true ↔ is_Some (NewVersion (latestVersion s))).
Proof.
  intros Hs.
  apply runCycle_samples in Hs
    as (object & source & d & latest & st & _ & _ & _ & _ & Hst & ->).
  cbn [sampleFor declaredVersion latestVersion]. intros Heq.
  rewrite Heq in Hst. unfold isCurrent. cbn [status]. rewrite Z.eqb_eq.
  by apply versionStatus_same_string.
Qed.

End CycleFurther.

(** ** The gauge vector across the iterations of the loop *)

Lemma setGauge_lookup (registry : gmap Labels Z) s (k : Labels) :
  setGauge registry s !! k
  = if decide (labelsOf s = k) then Some (status s) else registry !! k.
Proof. unfold setGauge. by rewrite lookup_insert. Qed.

Lemma fold_setGauge_lookup (ss : list StatusSample) (registry : gmap Labels Z)
    (k : Labels) :
  fold_left setGauge ss registry !! k =
  match last (filter (λ s, labelsOf s = k) ss) with
  | Some s => Some (status s)
  | None => registry !! k
  end.
Proof.
  revert registry. induction ss as [|s ss IH]; intros registry; [done|].
  cbn [fold_left]. rewrite IH, setGauge_lookup.
  destruct (decide (labelsOf s = k)) as [Hk|Hk].
  - rewrite filter_cons_True by done. rewrite last_cons.
    by destruct (last (filter _ ss)).
  - by rewrite filter_cons_False by done.
Qed.

Lemma publish_untouched (evs : list event) (registry : gmap Labels Z) (k : Labels) :
  (∀ s, s ∈ samples evs → labelsOf s ≠ k) →
  publish evs registry !! k = registry !! k.
Proof.
  intros H. unfold publish. rewrite fold_setGauge_lookup.
  assert (filter (λ s, labelsOf s = k) (samples evs) = []) as ->; [|done].
  induction (samples evs) as [|s ss IH]; [done|].
  rewrite filter_cons_False by (apply H; by left).
  apply IH. intros s' Hs'. apply H. by right.
Qed.

Section LoopFurther.
Context {L : SemverLib}.

(** X17.  A series goes stale instead of being corrected: in an iteration
    in which its chart does not resolve to the latest version the series
    is labelled with, the series keeps its value, even the value 1. *)
Theorem pollRound_stale_series (r : round) (registry : gmap Labels Z)
    (appName chart repoURL declared latest : string) :
  (getLatestChartVersion (N := roundNetwork r) repoURL chart).1
    ≠ Done (latest, None) →
  publish (pollRound r).2 registry !! (appName, chart, repoURL, declared, latest)
  = registry !! (appName, chart, repoURL, declared, latest).
Proof.
  intros Hr. apply publish_untouched. intros s Hs Hk.
  unfold pollRound in Hs.
  destruct (roundListing r) as [|items]; [by apply elem_of_nil in Hs|].
  apply (runCycle_samples (N := roundNetwork r)) in Hs
    as (object & source & d & latest' & st & _ & _ & _ & Hres & _ & ->).
  unfold labelsOf, sampleFor in Hk. cbn in Hk.
  injection Hk as _ Hchart Hrepo _ Hlatest. congruence.
Qed.

Lemma pollLoop_samples rounds s :
  s ∈ samples (pollLoop rounds).2 →
  ∃ r items, r ∈ rounds ∧ roundListing r = Listed items ∧
             s ∈ samples (runCycle (N := roundNetwork r) items).2.
Proof.
  intros Hs. apply forEach_samples in Hs as (r & Hr & Hs).
  unfold pollRound in Hs.
  destruct (roundListing r) as [|items] eqn:Hl; [by apply elem_of_nil in Hs|].
  by exists r, items.
Qed.

(** X20.  The gauge only ever takes the values 0 and 1: if every series
    holds 0 or 1 before the loop runs, so does every series after any
    number of iterations. *)
Theorem pollLoop_gauge_values (rounds : list round) (registry : gmap Labels Z) :
  (∀ k v, registry !! k = Some v → v = 0%Z ∨ v = 1%Z) →
  ∀ k v, publish (pollLoop rounds).2 registry !! k = Some v →
         v = 0%Z ∨ v = 1%Z.
Proof.
  intros Hreg k v. unfold publish. rewrite fold_setGauge_lookup.
  destruct (last (filter _ _)) as [s|] eqn:Hlast; [|apply Hreg].
  intros [= <-]. apply last_Some_elem_of, list_elem_of_filter in Hlast as [_ Hs].
  apply pollLoop_samples in Hs as (r & items & _ & _ & Hs).
  apply (runCycle_samples (N := roundNetwork r)) in Hs
    as (object & source & d & latest & st & _ & _ & _ & _ & Hst & ->).
  apply versionStatus_Done in Hst as [[-> | ->] _]; cbn; auto.
Qed.

End LoopFurther.

(** ** The further properties at work on the small world *)

Lemma scanVersions_returns_entry_witness :
  scanVersions (L := mastermindsLib true) "1.0.0" ["1.2.0"; "bogus"; "1.1.0"]
    = Done "1.2.0" ∧
  "1.2.0" ∈ ["1.0.0"; "1.2.0"; "bogus"; "1.1.0"] ∧
  (is_Some (NewVersion (SemverLib := mastermindsLib true) "1.2.0") ↔
   is_Some (NewVersion (SemverLib := mastermindsLib true) "1.0.0")).
Proof.
  assert (scanVersions (L := mastermindsLib true) "1.0.0" ["1.2.0"; "bogus"; "1.1.0"]
          = Done "1.2.0") as H by (vm_compute; reflexivity).
  split; [exact H|].
  exact (scanVersions_returns_entry (L := mastermindsLib true) _ _ _ H).
Defined.

(** Two entries of equal precedence: the one listed first is kept. *)
Example scanVersions_keeps_earlier_of_equals :
  scanVersions (L := mastermindsLib true) "1.0.0" ["1.2.0+a"; "1.2.0+b"; "1.2.0"]
    = Done "1.2.0+a".
Proof. vm_compute. reflexivity. Qed.

Lemma scanVersions_first_maximum_witness :
  ∃ latest before after top,
    scanVersions (L := mastermindsLib true) "1.0.0" ["1.2.0+a"; "1.2.0+b"]
      = Done latest ∧
    ["1.0.0"; "1.2.0+a"; "1.2.0+b"] = (before ++ latest :: after)%list ∧
    NewVersion (SemverLib := mastermindsLib true) latest = Some top ∧
    (∀ e v, e ∈ before → NewVersion (SemverLib := mastermindsLib true) e = Some v →
            Compare (SemverLib := mastermindsLib true) v top = Lt) ∧
    (∀ e v, e ∈ after → NewVersion (SemverLib := mastermindsLib true) e = Some v →
            Compare (SemverLib := mastermindsLib true) v top ≠ Gt).
Proof.
  apply (scanVersions_first_maximum (L := mastermindsLib true)
           (O := mastermindsLib_order true) "1.0.0" ["1.2.0+a"; "1.2.0+b"]).
  vm_compute. eauto.
Defined.

Lemma extract_reads_three_keys_witness :
  extract (<["helm" := VMap ∅]> (helmSource "nginx" "https://x" "1.0.0"))
  = extract (helmSource "nginx" "https://x" "1.0.0").
Proof.
  apply extract_reads_three_keys. intros key Hkey.
  rewrite !elem_of_cons in Hkey.
  destruct Hkey as [->|[->|[->|Hkey]]]; [reflexivity..|].
  by apply elem_of_nil in Hkey.
Defined.

Lemma runCycle_sample_labels_witness :
  let s := sampleFor "web" {| dChartName := "nginx"; dRepositoryURL := "https://x/";
                              dDeclaredVersion := "1.2.0" |} "1.2.0" 1 in
  s ∈ samples (runCycle (L := mastermindsLib true) (N := demoNetwork)
                 [cacheApp; webApp]).2 ∧
  ∃ body index versions,
    httpGet (Network := demoNetwork) "https://x//index.yaml" = Some body ∧
    yamlDecode (Network := demoNetwork) body = Some index ∧
    index !! "nginx" = Some versions ∧ "1.2.0" ∈ versions.
Proof.
  intros s.
  assert (s ∈ samples (runCycle (L := mastermindsLib true) (N := demoNetwork)
                         [cacheApp; webApp]).2) as Hs by (vm_compute; left).
  split; [exact Hs|].
  exact (proj2 (proj2 (proj2
    (runCycle_sample_labels (L := mastermindsLib true) (N := demoNetwork) _ s Hs)))).
Defined.

Lemma runCycle_same_version_string_witness :
  let s := sampleFor "nightly" {| dChartName := "nightly"; dRepositoryURL := "https://x/";
                                  dDeclaredVersion := "latest" |} "latest" 0 in
  s ∈ samples (runCycle (L := mastermindsLib true) (N := demoNetwork) [nightlyApp]).2 ∧
  (isCurrent s = true ↔
   is_Some (NewVersion (SemverLib := mastermindsLib true) "latest")).
Proof.
  intros s.
  assert (s ∈ samples (runCycle (L := mastermindsLib true) (N := demoNetwork)
                         [nightlyApp]).2) as Hs by (vm_compute; left).
  split; [exact Hs|].
  exact (runCycle_same_version_string (L := mastermindsLib true) (N := demoNetwork)
           (O := mastermindsLib_order true) [nightlyApp] s Hs eq_refl).
Defined.

(** Two iterations, the second after the release of nginx 1.3.0: the
    series that said "current" for latest 1.2.0 is still there with the
    value 1, beside the new series with the value 0. *)
Example stale_series_after_release :
  let registry :=
    publish (pollLoop (L := mastermindsLib true)
               [{| roundNetwork := demoNetwork; roundListing := Listed [webApp] |};
                {| roundNetwork := laterNetwork; roundListing := Listed [webApp] |}]).2
            ∅ in
  registry !! ("web", "nginx", "https://x/", "1.2.0", "1.2.0") = Some 1%Z ∧
  registry !! ("web", "nginx", "https://x/", "1.2.0", "1.3.0") = Some 0%Z.
Proof. split; vm_compute; reflexivity. Qed.

Lemma pollRound_stale_series_witness :
  let registry : gmap Labels Z :=
    {[ ("web", "nginx", "https://x/", "1.2.0", "1.2.0") := 1%Z ]} in
  publish (pollRound (L := mastermindsLib true)
             {| roundNetwork := laterNetwork; roundListing := Listed [webApp] |}).2
          registry !! ("web", "nginx", "https://x/", "1.2.0", "1.2.0")
  = registry !! ("web", "nginx", "https://x/", "1.2.0", "1.2.0").
Proof.
  intros registry.
  apply (pollRound_stale_series (L := mastermindsLib true)
           {| roundNetwork := laterNetwork; roundListing := Listed [webApp] |}
           registry "web" "nginx" "https://x/" "1.2.0" "1.2.0").
  vm_compute. discriminate.
Defined.

Lemma pollLoop_gauge_values_witness :
  let registry :=
    publish (pollLoop (L := mastermindsLib true)
               [{| roundNetwork := demoNetwork; roundListing := Listed [webApp; shopApp] |}]).2
            ∅ in
  registry !! ("shop", "nginx", "https://x/", "bogus", "1.2.0") = Some 0%Z ∧
  (0 = 0 ∨ 0 = 1)%Z.
Proof.
  intros registry.
  assert (registry !! ("shop", "nginx", "https://x/", "bogus", "1.2.0") = Some 0%Z)
    as Hk by (vm_compute; reflexivity).
  split; [exact Hk|].
  refine (pollLoop_gauge_values (L := mastermindsLib true) _ ∅ _ _ _ Hk).
  intros k v H. by rewrite lookup_empty in H.
Defined.

(** ** The cycle against the samples it owes *)

Section CycleOwed.
Context {L : SemverLib} {N : Network}.

(** One call of [processHelmSource] against its verdict. *)
Lemma processCall_verdict call :
  samples (processCall call).2
    = match callVerdict call with Published s => [s] | _ => [] end ∧
  ((processCall call).1 = Panic ↔ callVerdict call = Crashed).
Proof.
  unfold processCall, processHelmSource, callVerdict.
  destruct (extract call.2) as [d|]; [|done].
  rewrite reportSource_unfold. cbn zeta.
  destruct (getLatestChartVersion _ _).1 as [[latest [e|]]|]; try done.
  by destruct (versionStatus _ _).
Qed.

(** The loop over the calls publishes what is owed, no more and no less. *)
Lemma forEach_expectedSamples calls :
  samples (forEach calls processCall).2 = expectedSamples calls.
Proof.
  induction calls as [|call calls IH]; [done|].
  cbn [forEach expectedSamples]. rewrite bind_unfold.
  destruct (processCall_verdict call) as [Hs Hp].
  destruct (processCall call) as [[[]|] evs]; cbn [bind fst snd] in *.
  - destruct (forEach calls processCall) as [o evs']. cbn [snd] in *.
    rewrite samples_app, Hs, IH.
    destruct (callVerdict call); try done.
    by assert (Done () = Panic) by (by apply Hp).
  - rewrite Hs. by rewrite (proj1 Hp eq_refl).
Qed.

Lemma runCycle_expectedSamples items :
  samples (runCycle items).2 = expectedSamples (cycleSources items).
Proof. by rewrite runCycle_sources, forEach_expectedSamples. Qed.

Lemma forEach_processCall_Done calls :
  (∀ call, call ∈ calls → callVerdict call ≠ Crashed) →
  (forEach calls processCall).1 = Done tt.
Proof.
  intros Hsafe.
  destruct (forEach calls processCall).1 as [[]|] eqn:Hp; [done|].
  apply forEach_Panic_iff in Hp as (call & Hcall & Hp).
  apply processCall_verdict in Hp. by destruct (Hsafe call Hcall).
Qed.

(** A source that is no Helm source or does not resolve owes nothing and
    takes nothing from the others. *)
Lemma expectedSamples_skip before call after :
  callVerdict call = NotHelm ∨ callVerdict call = Unresolved →
  expectedSamples (before ++ call :: after) = expectedSamples (before ++ after).
Proof.
  intros Hcall. induction before as [|c before IH]; cbn [app expectedSamples].
  - by destruct Hcall as [-> | ->].
  - by rewrite IH.
Qed.

Lemma expectedSamples_app calls1 calls2 :
  (∀ call, call ∈ calls1 → callVerdict call ≠ Crashed) →
  expectedSamples (calls1 ++ calls2)
  = (expectedSamples calls1 ++ expectedSamples calls2)%list.
Proof.
  induction calls1 as [|c calls1 IH]; intros Hsafe; [done|].
  cbn [app expectedSamples].
  assert (callVerdict c ≠ Crashed) as Hc by (apply Hsafe; by left).
  rewrite IH by (intros call Hcall; apply Hsafe; by right).
  by destruct (callVerdict c).
Qed.

(** Without a panic every sample owed is published. *)
Lemma expectedSamples_published calls call s :
  (∀ c, c ∈ calls → callVerdict c ≠ Crashed) →
  call ∈ calls → callVerdict call = Published s →
  s ∈ expectedSamples calls.
Proof.
  induction calls as [|c calls IH]; intros Hsafe Hcall Hpub;
    [by apply elem_of_nil in Hcall|].
  cbn [expectedSamples].
  assert (callVerdict c ≠ Crashed) as Hc by (apply Hsafe; by left).
  assert (call ∈ calls → s ∈ expectedSamples calls) as Hrest.
  { intros Hin. apply IH; [|done..]. intros c' Hc'. apply Hsafe. by right. }
  apply elem_of_cons in Hcall as [->|Hcall].
  - rewrite Hpub. by left.
  - destruct (callVerdict c); [auto | auto | right; auto | done].
Qed.

(** C8.  When the resolution of one descriptor fails with an error, the
    call for that descriptor returns after its fetch without a sample, and
    the cycle publishes exactly the samples owed for the other sources:
    one per source that passes the checks and resolves, in order, before
    and after the failed one alike.  When no other source makes the
    program panic, the cycle completes and every sample owed for another
    descriptor is among its samples. *)
Theorem runCycle_skips_failed_resolution
    items before after appName source d version e :
  cycleSources items = (before ++ (appName, source) :: after)%list →
  extract source = Some d →
  (getLatestChartVersion (dRepositoryURL d) (dChartName d)).1 = Done (version, Some e) →
  processHelmSource appName source
    = (Done tt, [EvFetch (dRepositoryURL d ++ "/index.yaml")]) ∧
  samples (runCycle items).2 = expectedSamples (before ++ after) ∧
  ((∀ call, call ∈ (before ++ after)%list → callVerdict call ≠ Crashed) →
     (runCycle items).1 = Done tt ∧
     ∀ call s, call ∈ (before ++ after)%list → callVerdict call = Published s →
               s ∈ samples (runCycle items).2).
Proof.
  intros Hcalls Hex Hr.
  assert (callVerdict (appName, source) = Unresolved) as Hverdict.
  { unfold callVerdict. cbn [snd]. by rewrite Hex, Hr. }
  assert (samples (runCycle items).2 = expectedSamples (before ++ after)) as Hsamples.
  { rewrite runCycle_expectedSamples, Hcalls.
    apply expectedSamples_skip. by right. }
  split; [|split; [done|]].
  - unfold processHelmSource. rewrite Hex. by eapply reportSource_error.
  - intros Hsafe. split.
    + rewrite runCycle_sources, Hcalls. apply forEach_processCall_Done.
      intros call Hcall. rewrite elem_of_app, elem_of_cons in Hcall.
      destruct Hcall as [Hcall|[->|Hcall]].
      * apply Hsafe, elem_of_app. by left.
      * by rewrite Hverdict.
      * apply Hsafe, elem_of_app. by right.
    + intros call s Hcall Hpub. rewrite Hsamples.
      by apply (expectedSamples_published _ call).
Qed.

(** C10.  When the spec holds both a [source] map and a [sources]
    sequence, the application is processed as the call for [source]
    followed by the calls for the maps of [sources] in sequence order: its
    samples are the samples owed for that list of sources, its fetches go
    to their repositories in that order, and when the single source does
    not make the program panic its samples come first and those of the
    listed sources follow. *)
Theorem processApplication_both_shapes object spec source sources :
  object !! "spec" = Some (VMap spec) →
  spec !! "source" = Some (VMap source) →
  spec !! "sources" = Some (VSlice sources) →
  let appName := GetName object in
  let listed := omap (λ src, assertMap (Some src)) sources in
  let calls := (appName, source) :: (pair appName <$> listed) in
  let urls := (λ d, dRepositoryURL d ++ "/index.yaml")
                <$> omap (λ call, extract call.2) calls in
  processApplication object =
    (processHelmSource appName source;;
     forEach listed (processHelmSource appName)) ∧
  samples (processApplication object).2 = expectedSamples calls ∧
  fetches (processApplication object).2 `prefix_of` urls ∧
  ((processApplication object).1 = Done tt →
     fetches (processApplication object).2 = urls) ∧
  (callVerdict (appName, source) ≠ Crashed →
     samples (processApplication object).2
     = (expectedSamples [(appName, source)]
        ++ expectedSamples (pair appName <$> listed))%list).
Proof.
  intros Hspec Hsource Hsources appName listed calls urls.
  assert (applicationSources object = calls) as Hcalls.
  { unfold applicationSources. rewrite Hspec. cbn [assertMap].
    rewrite Hsource, Hsources. cbn [assertMap assertSlice app].
    unfold calls, listed. by rewrite list_fmap_omap. }
  assert (samples (processApplication object).2 = expectedSamples calls) as Hsamples.
  { by rewrite processApplication_sources, Hcalls, forEach_expectedSamples. }
  split; [|split; [done|]].
  - unfold processApplication. rewrite Hspec. cbn [assertMap].
    rewrite Hsource, Hsources. cbn [assertMap assertSlice].
    rewrite !bind_unfold. apply bind_ext; [done|]. intros _.
    unfold listed. rewrite <-forEach_omap. apply forEach_ext.
    intros src. unfold processSourcesEntry. by destruct (assertMap (Some src)).
  - unfold urls. rewrite processApplication_sources, Hcalls.
    rewrite <-cycle_urls, <-fetches_concat.
    destruct (forEach_events_prefix calls processCall) as [Hp Hd].
    split; [by apply fetches_prefix|]. split.
    + intros H. by destruct (Hd H) as [-> _].
    + intros Hsafe. rewrite forEach_expectedSamples.
      apply (expectedSamples_app [(appName, source)]).
      intros call Hcall. by apply list_elem_of_singleton in Hcall as ->.
Qed.

End CycleOwed.

Lemma runCycle_skips_failed_resolution_witness :
  samples (runCycle (L := mastermindsLib true) (N := demoNetwork)
             [webApp; cacheApp; shopApp]).2 =
  [sampleFor "web" {| dChartName := "nginx"; dRepositoryURL := "https://x/";
                      dDeclaredVersion := "1.2.0" |} "1.2.0" 1;
   sampleFor "shop" {| dChartName := "nginx"; dRepositoryURL := "https://x/";
                       dDeclaredVersion := "1.0.0" |} "1.2.0" 0;
   sampleFor "shop" {| dChartName := "redis"; dRepositoryURL := "https://x/";
                       dDeclaredVersion := "1.0.0" |} "1.0.0" 1;
   sampleFor "shop" {| dChartName := "nginx"; dRepositoryURL := "https://x/";
                       dDeclaredVersion := "bogus" |} "1.2.0" 0] ∧
  (runCycle (L := mastermindsLib true) (N := demoNetwork)
     [webApp; cacheApp; shopApp]).1 = Done tt.
Proof.
  set (before := [("web", helmSource "nginx" "https://x" "1.2.0")]).
  set (after := [("shop", helmSource "nginx" "https://x" "1.0.0");
                 ("shop", helmSource "redis" "https://x/" "1.0.0");
                 ("shop", helmSource "nginx" "https://x" "bogus")]).
  assert (cycleSources [webApp; cacheApp; shopApp]
          = (before ++ ("cache", helmSource "redis" "https://down" "1.0.0") :: after)%list)
    as Hcalls by (vm_compute; reflexivity).
  assert (extract (helmSource "redis" "https://down" "1.0.0")
          = Some {| dChartName := "redis"; dRepositoryURL := "https://down/";
                    dDeclaredVersion := "1.0.0" |}) as Hex
    by (vm_compute; reflexivity).
  assert ((getLatestChartVersion (L := mastermindsLib true) (N := demoNetwork)
             "https://down/" "redis").1 = Done ("", Some HttpError)) as Hr
    by (vm_compute; reflexivity).
  destruct (runCycle_skips_failed_resolution
              (L := mastermindsLib true) (N := demoNetwork)
              _ before after _ _ _ _ _ Hcalls Hex Hr)
    as (_ & Hsamples & Hdone).
  split.
  - rewrite Hsamples. vm_compute. reflexivity.
  - apply Hdone. intros call Hcall. subst before after. cbn [app] in Hcall.
    repeat (apply elem_of_cons in Hcall as [->|Hcall];
            [vm_compute; discriminate|]).
    by apply elem_of_nil in Hcall.
Defined.

Lemma processApplication_both_shapes_witness :
  samples (processApplication (L := mastermindsLib true) (N := demoNetwork) shopApp).2 =
  [sampleFor "shop" {| dChartName := "nginx"; dRepositoryURL := "https://x/";
                       dDeclaredVersion := "1.0.0" |} "1.2.0" 0;
   sampleFor "shop" {| dChartName := "redis"; dRepositoryURL := "https://x/";
                       dDeclaredVersion := "1.0.0" |} "1.0.0" 1;
   sampleFor "shop" {| dChartName := "nginx"; dRepositoryURL := "https://x/";
                       dDeclaredVersion := "bogus" |} "1.2.0" 0] ∧
  fetches (processApplication (L := mastermindsLib true) (N := demoNetwork) shopApp).2 =
  ["https://x//index.yaml"; "https://x//index.yaml"; "https://x//index.yaml"].
Proof.
  set (source := helmSource "nginx" "https://x" "1.0.0").
  set (sources := [VMap (helmSource "redis" "https://x/" "1.0.0");
                   VString "git";
                   VMap (helmSource "nginx" "https://x" "bogus")]).
  set (spec := ({[ "source" := VMap source; "sources" := VSlice sources ]}
                : gmap string value)).
  assert (shopApp !! "spec" = Some (VMap spec)) as Hspec
    by (vm_compute; reflexivity).
  assert (spec !! "source" = Some (VMap source)) as Hsource
    by (vm_compute; reflexivity).
  assert (spec !! "sources" = Some (VSlice sources)) as Hsources
    by (vm_compute; reflexivity).
  destruct (processApplication_both_shapes (L := mastermindsLib true)
              (N := demoNetwork) shopApp spec source sources Hspec Hsource Hsources)
    as (_ & Hsamples & _ & Hfetches & _).
  split.
  - rewrite Hsamples. vm_compute. reflexivity.
  - rewrite Hfetches by (vm_compute; reflexivity). vm_compute. reflexivity.
Defined.
